(** * Morse: the two chat prototypes, embedded and verified

    The mocked messaging interface (GUI/) and the socket echo page
    (frontend/page.tsx) are React components.  A component is embedded as
    the record of its [useState] cells, every handler as a function on that
    record, and a pending [setTimeout] callback as the data its closure
    captured.  A render that throws leaves no state: React unmounts the
    tree, and the step has no result.

    Strings that the code stores, compares, trims or concatenates are
    modelled by [string], one character per UTF-16 code unit, over the code
    units U+0000..U+00FF.  The strings that the code lower-cases, display
    names and the search query, are modelled by [JS.text], over an
    alphabet that adds the Greek sigmas, where lower-casing depends on the
    context. *)

From Stdlib Require Import ZArith NArith Ascii String DecimalString DecimalPos DecimalZ.
From stdpp Require Import gmap strings list fin_maps.

Local Open Scope string_scope.

(** ** JavaScript primitives used by the components *)

Module JS.

(** A UTF-16 code unit of a display name or a query: U+0000..U+00FF, or
    one of U+03A3 (capital sigma), U+03C3 (small sigma) and U+03C2 (final
    small sigma). *)
Inductive CodeUnit :=
| Latin1 (c : ascii)
| CapitalSigma
| SmallSigma
| FinalSigma.

#[global] Instance CodeUnit_eq_dec : EqDecision CodeUnit.
Proof. solve_decision. Defined.

Definition text := list CodeUnit.

(** The text of a string literal. *)
Definition latin1 (s : string) : text := Latin1 <$> list_ascii_of_string s.

Definition isLatin1 (u : CodeUnit) : bool :=
  match u with Latin1 _ => true | _ => false end.

(** Code units that [String.prototype.toLowerCase] changes in the
    Latin-1 range: A-Z, and U+00C0..U+00DE except the sign U+00D7. *)
Definition isUpper (c : ascii) : bool :=
  let n := N_of_ascii c in
  ((65 <=? n) && (n <=? 90) ||
   (192 <=? n) && (n <=? 222) && negb (n =? 215))%N.

Definition toLowerChar (c : ascii) : ascii :=
  if isUpper c then ascii_of_N (N_of_ascii c + 32) else c.

(** The Unicode property Cased on the alphabet: the letters A-Z and a-z,
    U+00AA, U+00B5, U+00BA, U+00C0..U+00FF except U+00D7 and U+00F7, and
    the sigmas. *)
Definition isCased (u : CodeUnit) : bool :=
  match u with
  | Latin1 c =>
      let n := N_of_ascii c in
      ((65 <=? n) && (n <=? 90) || (97 <=? n) && (n <=? 122) ||
       (n =? 170) || (n =? 181) || (n =? 186) ||
       (192 <=? n) && (n <=? 214) || (216 <=? n) && (n <=? 246) ||
       (248 <=? n) && (n <=? 255))%N
  | _ => true
  end.

(** The Unicode property Case_Ignorable on the alphabet: U+0027, U+002E,
    U+003A, U+005E, U+0060, U+00A8, U+00AD, U+00AF, U+00B4, U+00B7 and
    U+00B8. *)
Definition isCaseIgnorable (u : CodeUnit) : bool :=
  match u with
  | Latin1 c =>
      let n := N_of_ascii c in
      ((n =? 39) || (n =? 46) || (n =? 58) || (n =? 94) || (n =? 96) ||
       (n =? 168) || (n =? 173) || (n =? 175) || (n =? 180) || (n =? 183) ||
       (n =? 184))%N
  | _ => false
  end.

(** What follows is a run of case-ignorable units and then a cased
    letter. *)
Fixpoint beforeCased (rest : text) : bool :=
  match rest with
  | [] => false
  | u :: rest' => if isCaseIgnorable u then beforeCased rest' else isCased u
  end.

(** Lower-casing from left to right; [afterCased] tells whether what
    precedes is a cased letter and then a run of case-ignorable units.  A
    capital sigma becomes the final sigma when it is after a cased letter
    and not before one (Unicode's Final_Sigma), the small sigma
    otherwise. *)
Fixpoint lowerAfter (afterCased : bool) (s : text) : text :=
  match s with
  | [] => []
  | u :: rest =>
      match u with
      | Latin1 c => Latin1 (toLowerChar c)
      | CapitalSigma =>
          if afterCased && negb (beforeCased rest) then FinalSigma else SmallSigma
      | SmallSigma => SmallSigma
      | FinalSigma => FinalSigma
      end
      :: lowerAfter (if isCaseIgnorable u then afterCased else isCased u) rest
  end.

(** [s.toLowerCase()] *)
Definition toLowerCase (s : text) : text := lowerAfter false s.

Fixpoint hasPrefix (p s : text) : bool :=
  match p, s with
  | [], _ => true
  | _ :: _, [] => false
  | a :: p', b :: s' => if bool_decide (a = b) then hasPrefix p' s' else false
  end.

(** [s.includes(sub)]: [sub] occurs in [s] at some index. *)
Fixpoint includes (s sub : text) : bool :=
  hasPrefix sub s ||
  match s with
  | [] => false
  | _ :: r => includes r sub
  end.

(** [s.startsWith(p)] *)
Fixpoint startsWith (p s : string) : bool :=
  match p, s with
  | EmptyString, _ => true
  | String _ _, EmptyString => false
  | String a p', String b s' =>
      if Ascii.eqb a b then startsWith p' s' else false
  end.

(** WhiteSpace and LineTerminator code units below U+0100: TAB, LF, VT,
    FF, CR, SP and NBSP. *)
Definition isWhiteSpace (c : ascii) : bool :=
  let n := N_of_ascii c in
  ((9 <=? n) && (n <=? 13) || (n =? 32) || (n =? 160))%N.

Fixpoint trimStart (s : string) : string :=
  match s with
  | EmptyString => EmptyString
  | String c r => if isWhiteSpace c then trimStart r else s
  end.

Fixpoint trimEnd (s : string) : string :=
  match s with
  | EmptyString => EmptyString
  | String c r =>
      match trimEnd r with
      | EmptyString => if isWhiteSpace c then EmptyString else String c EmptyString
      | r' => String c r'
      end
  end.

(** [s.trim()] *)
Definition trim (s : string) : string := trimEnd (trimStart s).

(** Truthiness of a string: only the empty string is falsy. *)
Definition truthy (s : string) : bool :=
  match s with EmptyString => false | String _ _ => true end.

(** Template literal [`${n}`] for an integral number. *)
Definition ofInt (n : Z) : string := NilZero.string_of_int (Z.to_int n).

(** The property names every plain object inherits from
    [Object.prototype].  Each of them holds a function, or for
    [__proto__] the prototype object: a truthy value that is not
    iterable. *)
Definition objectPrototypeMembers : list string :=
  ["constructor"; "hasOwnProperty"; "isPrototypeOf"; "propertyIsEnumerable";
   "toLocaleString"; "toString"; "valueOf"; "__proto__";
   "__defineGetter__"; "__defineSetter__"; "__lookupGetter__"; "__lookupSetter__"].

Definition inherited (k : string) : bool := bool_decide (k ∈ objectPrototypeMembers).

End JS.

(** ** Data model (GUI/lib/types.ts) *)

Inductive ContactStatus := online | offline.
Inductive MessageStatus := sent | delivered | read.

#[global] Instance ContactStatus_eq_dec : EqDecision ContactStatus.
Proof. solve_decision. Defined.
#[global] Instance MessageStatus_eq_dec : EqDecision MessageStatus.
Proof. solve_decision. Defined.

Module Contact.
Record t := mk {
  id : string;
  name : JS.text;
  avatar : string;
  status : ContactStatus;
  lastMessage : string;
  lastMessageTime : string
}.
#[global] Instance eq_dec : EqDecision t.
Proof. solve_decision. Defined.
End Contact.

Module Message.
(** [timestamp] is the [Date]'s time value, milliseconds since the epoch. *)
Record t := mk {
  id : string;
  content : string;
  senderId : string;
  timestamp : Z;
  status : MessageStatus
}.
#[global] Instance eq_dec : EqDecision t.
Proof. solve_decision. Defined.
End Message.

(** ** The mocked messaging interface (GUI/) *)

Module GUI.

(** *** components/contact-list.tsx *)

(** [contacts.filter(contact =>
      contact.name.toLowerCase().includes(searchQuery.toLowerCase()))] *)
Definition filteredContacts (contacts : list Contact.t) (searchQuery : JS.text)
  : list Contact.t :=
  List.filter
    (fun contact =>
       JS.includes (JS.toLowerCase (Contact.name contact)) (JS.toLowerCase searchQuery))
    contacts.

(** *** The [useState] cells of the three components *)

(** [MessagingInterface]; [isMobile] and [theme] are the values the
    [useMobile] and [useTheme] hooks return.  [messages] holds the own
    properties of the message record, a plain object. *)
Record MessagingInterface := mkShell {
  contacts : list Contact.t;
  messages : gmap string (list Message.t);
  selectedContact : option Contact.t;
  showSidebar : bool;
  isMobile : bool;
  theme : string
}.

Record MessageInput := mkInput {
  message : string;
  isSending : bool
}.

(** A callback handed to [setTimeout] in [handleSend].  Its closure holds
    the [message] of the render that created it and that render's
    [onSendMessage] prop, which is [handleSendMessage] closed over the
    [selectedContact] of the same render. *)
Record Timer := mkTimer {
  timer_message : string;
  timer_selectedContact : option Contact.t
}.

(** The page: the three components and the timer queue of the event loop,
    oldest callback first (all are scheduled with the same delay). *)
Record App := mkApp {
  shell : MessagingInterface;
  searchQuery : JS.text;
  input : MessageInput;
  timers : list Timer
}.

Definition setMessages (m : gmap string (list Message.t))
    (s : MessagingInterface) : MessagingInterface :=
  mkShell (contacts s) m (selectedContact s) (showSidebar s) (isMobile s) (theme s).

Definition setSelectedContact (c : Contact.t) (s : MessagingInterface) : MessagingInterface :=
  mkShell (contacts s) (messages s) (Some c) (showSidebar s) (isMobile s) (theme s).

Definition setShowSidebar (b : bool) (s : MessagingInterface) : MessagingInterface :=
  mkShell (contacts s) (messages s) (selectedContact s) b (isMobile s) (theme s).

Definition setTheme (t : string) (s : MessagingInterface) : MessagingInterface :=
  mkShell (contacts s) (messages s) (selectedContact s) (showSidebar s) (isMobile s) t.

Definition setIsMobile (b : bool) (s : MessagingInterface) : MessagingInterface :=
  mkShell (contacts s) (messages s) (selectedContact s) (showSidebar s) b (theme s).

(** *** messaging-interface.tsx *)

(** The object literal built by [handleSendMessage]; [now] is what
    [Date.now()] returns and [date] the time value of [new Date()]. *)
Definition newMessage (now date : Z) (content : string) : Message.t :=
  Message.mk ("msg-" +:+ JS.ofInt now) content "me" date sent.

(** [[...(prev[id] || [])]]: the elements spread into the new array.  An
    own property is the conversation; a name that is neither own nor
    inherited reads [undefined] and gives the empty array; a name that is
    not own but inherited from [Object.prototype] reads a truthy value that
    is not iterable, and the spread throws a TypeError: no result. *)
Definition conversation (prev : gmap string (list Message.t)) (id : string)
  : option (list Message.t) :=
  match prev !! id with
  | Some l => Some l
  | None => if JS.inherited id then None else Some []
  end.

(** [handleSendMessage(content)], as the update it makes to the message
    record: none when the guard returns early, otherwise the updater
    passed to [setMessages].  There is no result when the updater
    throws. *)
Definition handleSendMessage (selectedContact : option Contact.t) (now date : Z)
    (content : string) (prev : gmap string (list Message.t))
  : option (gmap string (list Message.t)) :=
  match selectedContact with
  | None => Some prev
  | Some c =>
      if negb (JS.truthy (JS.trim content)) then Some prev
      else match conversation prev (Contact.id c) with
           | Some l => Some (<[Contact.id c := (l ++ [newMessage now date content])%list]> prev)
           | None => None
           end
  end.

Definition toggleTheme (s : MessagingInterface) : MessagingInterface :=
  setTheme (if String.eqb (theme s) "dark" then "light" else "dark") s.

(** The [onCloseSidebar] prop: [() => isMobile && setShowSidebar(false)]. *)
Definition onCloseSidebar (s : MessagingInterface) : MessagingInterface :=
  if isMobile s then setShowSidebar false s else s.

(** [handleContactClick(contact)] of the contact list. *)
Definition handleContactClick (contact : Contact.t) (s : MessagingInterface)
  : MessagingInterface :=
  onCloseSidebar (setSelectedContact contact s).

(** *** components/message-input.tsx *)

Definition handleSend (a : App) : App :=
  if JS.truthy (JS.trim (message (input a))) then
    mkApp (shell a) (searchQuery a)
          (mkInput (message (input a)) true)
          (timers a ++ [mkTimer (message (input a)) (selectedContact (shell a))])%list
  else a.

(** The [setTimeout] callback and the render it causes: the three state
    updates are committed together, unless the updater of the message
    record throws during the render; then React unmounts the tree and
    nothing is left of the page. *)
Definition runTimer (t : Timer) (now date : Z) (a : App) : option App :=
  match handleSendMessage (timer_selectedContact t) now date (timer_message t)
                          (messages (shell a)) with
  | Some m => Some (mkApp (setMessages m (shell a)) (searchQuery a) (mkInput "" false)
                          (timers a))
  | None => None
  end.

Record KeyboardEvent := mkKey {
  key : string;
  shiftKey : bool;
  ctrlKey : bool;
  altKey : bool;
  metaKey : bool
}.

(** [handleKeyDown(e)]; the second component tells whether
    [e.preventDefault()] was called. *)
Definition handleKeyDown (e : KeyboardEvent) (a : App) : App * bool :=
  if String.eqb (key e) "Enter" && negb (shiftKey e) then (handleSend a, true)
  else (a, false).

(** [disabled={!message.trim() || isSending}] of the send button. *)
Definition sendDisabled (i : MessageInput) : bool :=
  negb (JS.truthy (JS.trim (message i))) || isSending i.

(** *** The host's part *)

Definition LF : string := String (ascii_of_nat 10) EmptyString.

(** What the textarea does with an Enter key press that no handler
    prevented: a line feed is inserted at the caret.  This is the
    element's native behaviour, not code of the repository. *)
Definition insertLineBreak (caret : nat) (value : string) : string :=
  substring 0 caret value +:+ LF +:+ substring caret (String.length value - caret) value.

Definition setMessage (v : string) (a : App) : App :=
  mkApp (shell a) (searchQuery a) (mkInput v (isSending (input a))) (timers a).

Definition withShell (f : MessagingInterface -> MessagingInterface) (a : App) : App :=
  mkApp (f (shell a)) (searchQuery a) (input a) (timers a).

(** What can happen to the page.  [KeyDown] carries the caret position of
    the textarea; [TimerFires] the two clock readings of the callback. *)
Inductive Event :=
| Search (q : JS.text)
| ContactClick (c : Contact.t)
| MenuClick
| ThemeClick
| Resize (mobile : bool)
| Change (value : string)
| KeyDown (e : KeyboardEvent) (caret : nat)
| SendClick
| TimerFires (now date : Z).

(** The composer is rendered only while a contact is selected. *)
Definition composerMounted (a : App) : bool :=
  match selectedContact (shell a) with Some _ => true | None => false end.

(** One event on a live page; no result when the render throws. *)
Definition step (a : App) (ev : Event) : option App :=
  match ev with
  | Search q => Some (mkApp (shell a) q (input a) (timers a))
  | ContactClick c =>
      Some (if bool_decide (c ∈ filteredContacts (contacts (shell a)) (searchQuery a))
            then withShell (handleContactClick c) a else a)
  | MenuClick =>
      Some (if isMobile (shell a)
            then withShell (fun s => setShowSidebar (negb (showSidebar s)) s) a else a)
  | ThemeClick => Some (withShell toggleTheme a)
  | Resize mobile => Some (withShell (setIsMobile mobile) a)
  | Change v => Some (if composerMounted a then setMessage v a else a)
  | KeyDown e caret =>
      Some (if composerMounted a then
              let '(a', prevented) := handleKeyDown e a in
              if negb prevented && String.eqb (key e) "Enter"
              then setMessage (insertLineBreak caret (message (input a'))) a'
              else a'
            else a)
  | SendClick =>
      Some (if composerMounted a && negb (sendDisabled (input a)) then handleSend a else a)
  | TimerFires now date =>
      match timers a with
      | [] => Some a
      | t :: rest =>
          runTimer t now date (mkApp (shell a) (searchQuery a) (input a) rest)
      end
  end.

(** A run ends where a render throws. *)
Fixpoint run (a : App) (evs : list Event) : option App :=
  match evs with
  | [] => Some a
  | ev :: rest =>
      match step a ev with
      | Some a' => run a' rest
      | None => None
      end
  end.

(** The first render: [initialContacts] and [initialMessages] come from
    the mock-data module. *)
Definition init (initialContacts : list Contact.t)
    (initialMessages : gmap string (list Message.t)) (mobile : bool) (theme : string) : App :=
  mkApp (mkShell initialContacts initialMessages (head initialContacts) true mobile theme)
        [] (mkInput "" false) [].

End GUI.

(** ** The socket echo page (frontend/page.tsx) *)

Module Echo.

(** The payload of an inbound event, an object with a [text] field. *)
Record Payload := mkPayload { text : string }.

(** [msg] and [messages] are the [useState] cells of [Home]; [emitted]
    records the [socket.emit] calls made so far, as event name and
    argument, oldest first. *)
Record Home := mkHome {
  msg : string;
  messages : list string;
  emitted : list (string * string)
}.

Definition init : Home := mkHome "" [] [].

(** The handler registered by [socket.on("receive", ...)]. *)
Definition onReceive (data : Payload) (h : Home) : Home :=
  mkHome (msg h) (messages h ++ ["Friend: " +:+ text data])%list (emitted h).

Definition send (h : Home) : Home :=
  if String.eqb (JS.trim (msg h)) "" then h
  else mkHome "" (messages h ++ ["You: " +:+ msg h])%list
              (emitted h ++ [("message", msg h)])%list.

Inductive Event :=
| Change (value : string)
| SendClick
| Inbound (event : string) (data : Payload).

Definition step (h : Home) (ev : Event) : Home :=
  match ev with
  | Change v => mkHome v (messages h) (emitted h)
  | SendClick => send h
  | Inbound event data => if String.eqb event "receive" then onReceive data h else h
  end.

Definition run (h : Home) (evs : list Event) : Home := fold_left step evs h.

End Echo.

(** ** Sample data *)

Definition alice : Contact.t :=
  Contact.mk "1" (JS.latin1 "Alice") "/a.png" online "See you" "10:30".
Definition bob : Contact.t :=
  Contact.mk "2" (JS.latin1 "Bob") "/b.png" offline "ok" "09:15".

(** A contact whose id is the name of a member of [Object.prototype]. *)
Definition carol : Contact.t :=
  Contact.mk "constructor" (JS.latin1 "Carol") "/c.png" online "hi" "08:00".


Definition plainEnter : GUI.KeyboardEvent := GUI.mkKey "Enter" false false false false.
Definition shiftEnter : GUI.KeyboardEvent := GUI.mkKey "Enter" true false false false.
Definition ctrlEnter : GUI.KeyboardEvent := GUI.mkKey "Enter" false true false false.

Definition desktop : GUI.App := GUI.init [alice; bob] ∅ false "light".
Definition phone : GUI.App := GUI.init [alice; bob] ∅ true "light".

(** ** The vocabulary of the specification

    These definitions follow the words of the specification; the theorems
    below compare them with the definitions taken from the code. *)

Module Spec.

(** "empty or whitespace-only" *)
Fixpoint blank (s : string) : bool :=
  match s with
  | EmptyString => true
  | String c r => JS.isWhiteSpace c && blank r
  end.

(** Two code units that differ at most in letter case: below U+0100 an
    upper-case letter and its lower-case form are 32 code points apart;
    the three sigmas are one letter. *)
Definition EqIgnoreCase (a b : JS.CodeUnit) : Prop :=
  match a, b with
  | JS.Latin1 x, JS.Latin1 y =>
      x = y \/
      (JS.isUpper x = true /\ N_of_ascii y = (N_of_ascii x + 32)%N) \/
      (JS.isUpper y = true /\ N_of_ascii x = (N_of_ascii y + 32)%N)
  | JS.Latin1 _, _ => False
  | _, JS.Latin1 _ => False
  | _, _ => True
  end.

Inductive SameIgnoringCase : JS.text -> JS.text -> Prop :=
| same_empty : SameIgnoringCase [] []
| same_char a b s t :
    EqIgnoreCase a b -> SameIgnoringCase s t ->
    SameIgnoringCase (a :: s) (b :: t).

(** "contains the query as a case-insensitive substring" *)
Definition ContainsIgnoringCase (name query : JS.text) : Prop :=
  exists pre mid post,
    name = (pre ++ mid ++ post)%list /\ SameIgnoringCase mid query.

(** Every code unit is below U+0100. *)
Definition Latin1Only (s : JS.text) : Prop := Forall (fun u => JS.isLatin1 u = true) s.

(** [r] is the sublist of [l] made of exactly the elements that satisfy
    [P], each kept where it stood. *)
Inductive Selects {A} (P : A -> Prop) : list A -> list A -> Prop :=
| selects_nil : Selects P [] []
| selects_keep x l r : P x -> Selects P l r -> Selects P (x :: l) (x :: r)
| selects_skip x l r : ~ P x -> Selects P l r -> Selects P (x :: l) r.


(** Every conversation of the record holds pairwise distinct ids. *)
Definition UniqueIds (m : gmap string (list Message.t)) : Prop :=
  forall k l, m !! k = Some l -> NoDup (Message.id <$> l).

(** The values [Date.now()] returned to the timer callbacks of a run. *)
Fixpoint clockReadings (evs : list GUI.Event) : list Z :=
  match evs with
  | [] => []
  | GUI.TimerFires now _ :: r => now :: clockReadings r
  | _ :: r => clockReadings r
  end.

Definition Reachable (a0 a : GUI.App) : Prop := exists evs, GUI.run a0 evs = Some a.

(** "Enter key without a modifier key submits; modifier+Enter inserts a
    literal newline instead." *)
Definition EnterSubmitsUnlessModified : Prop :=
  forall a e caret,
    GUI.composerMounted a = true -> GUI.key e = "Enter" ->
    GUI.step a (GUI.KeyDown e caret) =
    Some (if GUI.shiftKey e || GUI.ctrlKey e || GUI.altKey e || GUI.metaKey e
          then GUI.setMessage (GUI.insertLineBreak caret (GUI.message (GUI.input a))) a
          else GUI.handleSend a).

(** "re-selecting the same contact is a no-op": the selection, the sidebar
    and the message record are as before. *)
Definition ReselectChangesNothing : Prop :=
  forall a c,
    GUI.selectedContact (GUI.shell a) = Some c ->
    exists a',
      GUI.step a (GUI.ContactClick c) = Some a' /\
      GUI.selectedContact (GUI.shell a') = GUI.selectedContact (GUI.shell a) /\
      GUI.showSidebar (GUI.shell a') = GUI.showSidebar (GUI.shell a) /\
      GUI.messages (GUI.shell a') = GUI.messages (GUI.shell a).

(** The invariant of a run: conversations are duplicate-free, and every id
    in the record is an id of the seed or was made from a clock reading
    already used. *)
Definition IdsFrom (seed : gmap string (list Message.t)) (used : list Z)
    (m : gmap string (list Message.t)) : Prop :=
  forall k l, m !! k = Some l ->
    NoDup (Message.id <$> l) /\
    forall x, x ∈ l ->
      (exists k' l', seed !! k' = Some l' /\ Message.id x ∈ Message.id <$> l') \/
      (exists t, t ∈ used /\ Message.id x = "msg-" +:+ JS.ofInt t).

Definition SeedAvoids (seed : gmap string (list Message.t)) (now : Z) : Prop :=
  forall k l, seed !! k = Some l -> "msg-" +:+ JS.ofInt now ∉ Message.id <$> l.

(** "message identifiers unique within a conversation", in every state the
    page can reach from its first render. *)
Definition IdsAlwaysUnique (a0 : GUI.App) : Prop :=
  forall a, Reachable a0 a -> UniqueIds (GUI.messages (GUI.shell a)).

End Spec.

(** ** What the contact list renders, and the invariants of a page *)

Module View.

(** The scrolling part of the contact list: one row per filtered contact,
    or the placeholder when [filteredContacts.length > 0] fails. *)
Inductive ListBody :=
| Rows (rows : list Contact.t)
| NoContactsFound.

Definition listBody (contacts : list Contact.t) (searchQuery : JS.text) : ListBody :=
  let filteredContacts := GUI.filteredContacts contacts searchQuery in
  if (0 <? length filteredContacts)%nat then Rows filteredContacts else NoContactsFound.

End View.

Module Inv.

(** A pending callback that passes the guard of [handleSendMessage]: its
    draft is not blank and its contact is an entry of the directory. *)
Definition TimerOk (contacts : list Contact.t) (t : GUI.Timer) : Prop :=
  Spec.blank (GUI.timer_message t) = false /\
  exists c, GUI.timer_selectedContact t = Some c /\ c ∈ contacts.

Definition WellFormed (a : GUI.App) : Prop :=
  (forall c, GUI.selectedContact (GUI.shell a) = Some c -> c ∈ GUI.contacts (GUI.shell a)) /\
  Forall (TimerOk (GUI.contacts (GUI.shell a))) (GUI.timers a) /\
  (GUI.isSending (GUI.input a) = true -> GUI.timers a <> []).

(** A message as [handleSendMessage] builds it. *)
Definition Outgoing (m : Message.t) : Prop :=
  Message.senderId m = "me" /\ Message.status m = sent /\
  Spec.blank (Message.content m) = false.

(** An Enter key press that reaches [handleSend]. *)
Definition submitsByEnter (ev : GUI.Event) : bool :=
  match ev with
  | GUI.KeyDown e _ => String.eqb (GUI.key e) "Enter" && negb (GUI.shiftKey e)
  | _ => false
  end.

(** Lower-casing of one code unit below U+0100, where it does not depend
    on the context. *)
Definition lowerLatin1 (u : JS.CodeUnit) : JS.CodeUnit :=
  match u with JS.Latin1 c => JS.Latin1 (JS.toLowerChar c) | _ => u end.

(** The transcript lines that [send] writes. *)
Definition isLocalLine (line : string) : bool := JS.startsWith "You: " line.

Fixpoint sendClicks (evs : list Echo.Event) : nat :=
  match evs with
  | [] => 0
  | Echo.SendClick :: r => S (sendClicks r)
  | _ :: r => sendClicks r
  end.

End Inv.

(** ** Sample runs *)

Example toLowerCase_ex : JS.toLowerCase (JS.latin1 "Alice B") = JS.latin1 "alice b".
Proof. reflexivity. Qed.

Example toLowerCase_sigma :
  JS.toLowerCase [JS.Latin1 "A"%char; JS.CapitalSigma] = [JS.Latin1 "a"%char; JS.FinalSigma]
  /\ JS.toLowerCase [JS.CapitalSigma; JS.Latin1 "A"%char] = [JS.SmallSigma; JS.Latin1 "a"%char]
  /\ JS.toLowerCase [JS.CapitalSigma] = [JS.SmallSigma].
Proof. repeat split. Qed.

Example includes_ex :
  JS.includes (JS.latin1 "alice") (JS.latin1 "lic") = true
  /\ JS.includes (JS.latin1 "alice") [] = true
  /\ JS.includes (JS.latin1 "bob") (JS.latin1 "al") = false.
Proof. repeat split. Qed.

Example trim_ex : JS.trim "  hi there  " = "hi there" /\ JS.trim "   " = "".
Proof. split; reflexivity. Qed.

Example ofInt_ex : JS.ofInt 1700000000123 = "1700000000123".
Proof. reflexivity. Qed.

Example filter_al : GUI.filteredContacts [alice; bob] (JS.latin1 "al") = [alice].
Proof. reflexivity. Qed.

Example bob_hi :
  GUI.messages <$> (GUI.shell <$> GUI.run desktop
     [GUI.ContactClick bob; GUI.Change "hi"; GUI.SendClick; GUI.TimerFires 1000 1000])
  = Some {[ "2" := [Message.mk "msg-1000" "hi" "me" 1000 sent] ]}.
Proof. vm_compute. reflexivity. Qed.

Example carol_hi :
  GUI.run (GUI.init [carol] ∅ false "light")
          [GUI.Change "hi"; GUI.SendClick; GUI.TimerFires 1000 1000] = None.
Proof. vm_compute. reflexivity. Qed.

Example echo_hello :
  Echo.messages (Echo.run Echo.init
     [Echo.Change "hello"; Echo.SendClick; Echo.Inbound "receive" (Echo.mkPayload "hey")])
  = ["You: hello"; "Friend: hey"].
Proof. reflexivity. Qed.

(** ** Facts about the string primitives *)

Section StringFacts.

Lemma append_cons c s t : String c s +:+ t = String c (s +:+ t).
Proof. reflexivity. Qed.

Lemma append_empty_r s : s +:+ "" = s.
Proof. induction s as [|c s IH]; [done|]. by rewrite append_cons, IH. Qed.

Lemma startsWith_spec p s :
  JS.startsWith p s = true <-> exists post, s = p +:+ post.
Proof.
  revert s. induction p as [|a p IH]; intros s; simpl.
  - split; [intros _; by exists s | done].
  - destruct s as [|b s].
    + split; [done | intros [post H]; discriminate H].
    + destruct (Ascii.eqb_spec a b) as [->|Hne].
      * rewrite IH. split; intros [post H]; exists post.
        -- by rewrite append_cons, H.
        -- rewrite append_cons in H. by injection H.
      * split; [done | intros [post H]].
        rewrite append_cons in H. injection H as H1 _. by destruct Hne.
Qed.

Lemma hasPrefix_spec (p s : JS.text) :
  JS.hasPrefix p s = true <-> exists post, s = (p ++ post)%list.
Proof.
  revert s. induction p as [|a p IH]; intros s; simpl.
  - split; [intros _; by exists s | done].
  - destruct s as [|b s].
    + split; [done | intros [post H]; discriminate H].
    + case_bool_decide as Hab.
      * subst b. rewrite IH. split; intros [post H]; exists post.
        -- by rewrite H.
        -- by injection H.
      * split; [done | intros [post H]]. injection H as H1 _. by destruct Hab.
Qed.

Lemma includes_spec (s sub : JS.text) :
  JS.includes s sub = true <-> exists pre post, s = (pre ++ sub ++ post)%list.
Proof.
  induction s as [|c s IH]; simpl.
  - rewrite orb_false_r, hasPrefix_spec. split.
    + intros [post H]. by exists [], post.
    + intros [[|a pre] [post H]]; [by exists post | discriminate H].
  - rewrite orb_true_iff, hasPrefix_spec, IH. split.
    + intros [[post H] | (pre & post & H)].
      * by exists [], post.
      * exists (c :: pre), post. by rewrite H.
    + intros ([|a pre] & post & H).
      * left. by exists post.
      * right. injection H as _ H. by exists pre, post.
Qed.

Lemma includes_empty (s : JS.text) : JS.includes s [] = true.
Proof. apply includes_spec. by exists [], s. Qed.


Lemma includes_inner (s p q r : JS.text) :
  JS.includes s (p ++ q ++ r)%list = true -> JS.includes s q = true.
Proof.
  rewrite !includes_spec. intros (pre & post & ->).
  exists (pre ++ p)%list, (r ++ post)%list. by rewrite <- !app_assoc.
Qed.

(** Without a sigma, lower-casing is code unit by code unit. *)
Lemma lowerAfter_latin1 b (s : JS.text) :
  Spec.Latin1Only s -> JS.lowerAfter b s = Inv.lowerLatin1 <$> s.
Proof.
  intros H. revert b. induction H as [|u s Hu _ IH]; intros b; [done|].
  destruct u; try discriminate Hu. simpl. by rewrite IH.
Qed.

Lemma toLowerCase_latin1 (s : JS.text) :
  Spec.Latin1Only s -> JS.toLowerCase s = Inv.lowerLatin1 <$> s.
Proof. apply lowerAfter_latin1. Qed.

Lemma isUpper_range c :
  JS.isUpper c = true <->
  (65 <= N_of_ascii c <= 90 \/ 192 <= N_of_ascii c <= 222 /\ N_of_ascii c <> 215)%N.
Proof.
  unfold JS.isUpper.
  rewrite orb_true_iff, !andb_true_iff, !N.leb_le, negb_true_iff, N.eqb_neq.
  tauto.
Qed.

Lemma toLowerChar_upper c :
  JS.isUpper c = true -> N_of_ascii (JS.toLowerChar c) = (N_of_ascii c + 32)%N.
Proof.
  intros H. unfold JS.toLowerChar. rewrite H.
  apply N_ascii_embedding. apply isUpper_range in H. lia.
Qed.

Lemma toLowerChar_other c : JS.isUpper c = false -> JS.toLowerChar c = c.
Proof. intros H. unfold JS.toLowerChar. by rewrite H. Qed.

Lemma N_of_ascii_inj a b : N_of_ascii a = N_of_ascii b -> a = b.
Proof.
  intros H. rewrite <- (ascii_N_embedding a), <- (ascii_N_embedding b). by rewrite H.
Qed.

(** Below U+0100, lower-casing identifies exactly the code units that
    differ at most in letter case. *)
Lemma toLowerChar_eq_iff a b :
  JS.toLowerChar a = JS.toLowerChar b <-> Spec.EqIgnoreCase (JS.Latin1 a) (JS.Latin1 b).
Proof.
  unfold Spec.EqIgnoreCase.
  destruct (JS.isUpper a) eqn:Ha, (JS.isUpper b) eqn:Hb.
  - pose proof (toLowerChar_upper a Ha) as Ea.
    pose proof (toLowerChar_upper b Hb) as Eb.
    apply isUpper_range in Ha, Hb. split.
    + intros H. left. apply N_of_ascii_inj. rewrite H in Ea. lia.
    + intros [-> | [[_ H] | [_ H]]]; [done | lia | lia].
  - pose proof (toLowerChar_upper a Ha) as Ea.
    rewrite (toLowerChar_other b Hb).
    assert (Hb' := Hb). apply not_true_iff_false in Hb'. rewrite isUpper_range in Hb'.
    split.
    + intros H. right. left. split; [done|]. by rewrite <- H.
    + intros [-> | [[_ H] | [H _]]]; [congruence | | done].
      apply N_of_ascii_inj. by rewrite Ea.
  - pose proof (toLowerChar_upper b Hb) as Eb.
    rewrite (toLowerChar_other a Ha).
    split.
    + intros H. right. right. split; [done|]. by rewrite H.
    + intros [-> | [[H _] | [_ H]]]; [congruence | done |].
      apply N_of_ascii_inj. by rewrite Eb.
  - rewrite (toLowerChar_other a Ha), (toLowerChar_other b Hb).
    split; [by left | intros [H | [[H _] | [H _]]]; [done | done | done]].
Qed.

Lemma lowerLatin1_eq_iff (s t : JS.text) :
  Spec.Latin1Only s -> Spec.Latin1Only t ->
  Inv.lowerLatin1 <$> s = Inv.lowerLatin1 <$> t <-> Spec.SameIgnoringCase s t.
Proof.
  intros Hs Ht. split.
  - revert t Ht. induction Hs as [|a s Ha _ IH]; intros t Ht H.
    + destruct t; [constructor | discriminate H].
    + destruct t as [|b t]; [discriminate H|].
      apply Forall_cons in Ht as [Hb Ht].
      destruct a as [x| | |], b as [y| | |]; try discriminate Ha; try discriminate Hb.
      simpl in H. injection H as Hc H.
      constructor; [by apply toLowerChar_eq_iff | by apply IH].
  - intros H. induction H as [|a b s t Hc _ IH]; [done|].
    apply Forall_cons in Hs as [Ha Hs]. apply Forall_cons in Ht as [Hb Ht].
    destruct a as [x| | |], b as [y| | |]; try discriminate Ha; try discriminate Hb.
    apply toLowerChar_eq_iff in Hc. rewrite !fmap_cons, (IH Hs Ht). simpl. by rewrite Hc.
Qed.

(** Below U+0100 the filter's predicate decides the specification's
    wording. *)
Lemma includes_toLowerCase_spec (name query : JS.text) :
  Spec.Latin1Only name -> Spec.Latin1Only query ->
  JS.includes (JS.toLowerCase name) (JS.toLowerCase query) = true
  <-> Spec.ContainsIgnoringCase name query.
Proof.
  intros Hn Hq. rewrite (toLowerCase_latin1 name Hn), (toLowerCase_latin1 query Hq).
  rewrite includes_spec. split.
  - intros (pre & post & H).
    apply fmap_app_inv in H as (s1 & s23 & -> & H & ->).
    symmetry in H. apply fmap_app_inv in H as (s2 & s3 & H & -> & ->).
    apply Forall_app in Hn as [_ Hn]. apply Forall_app in Hn as [Hn _].
    exists s1, s2, s3. split; [done|]. by apply lowerLatin1_eq_iff.
  - intros (pre & mid & post & -> & H).
    pose proof Hn as Hm. apply Forall_app in Hm as [_ Hm]. apply Forall_app in Hm as [Hm _].
    apply (lowerLatin1_eq_iff mid query Hm Hq) in H.
    exists (Inv.lowerLatin1 <$> pre), (Inv.lowerLatin1 <$> post).
    by rewrite !fmap_app, H.
Qed.

Lemma latin1_Latin1Only s : Spec.Latin1Only (JS.latin1 s).
Proof. unfold JS.latin1. apply Forall_fmap. by apply Forall_true. Qed.

Lemma trimStart_empty_iff s : JS.trimStart s = "" <-> Spec.blank s = true.
Proof.
  induction s as [|c s IH]; simpl; [done|].
  destruct (JS.isWhiteSpace c); simpl; [done|]. split; discriminate.
Qed.

Lemma trimStart_head s c r : JS.trimStart s = String c r -> JS.isWhiteSpace c = false.
Proof.
  induction s as [|a s IH]; simpl; [discriminate|].
  destruct (JS.isWhiteSpace a) eqn:Ha; [done|]. intros [= <- _]. done.
Qed.

Lemma trimEnd_empty_iff s : JS.trimEnd s = "" <-> Spec.blank s = true.
Proof.
  induction s as [|c s IH]; simpl; [done|].
  destruct (JS.trimEnd s) as [|a r].
  - destruct (JS.isWhiteSpace c); simpl; [done|]. split; [discriminate|].
    intros H. discriminate H.
  - split; [discriminate|]. rewrite andb_true_iff. intros [_ H].
    apply IH in H. discriminate H.
Qed.

(** [s.trim()] is empty exactly for the empty and the whitespace-only
    strings. *)
Lemma trim_empty_iff s : JS.trim s = "" <-> Spec.blank s = true.
Proof.
  unfold JS.trim. rewrite trimEnd_empty_iff. split.
  - intros H. apply trimStart_empty_iff.
    destruct (JS.trimStart s) as [|c r] eqn:E; [done|].
    apply trimStart_head in E. simpl in H. by rewrite E in H.
  - intros H. apply trimStart_empty_iff in H. by rewrite H.
Qed.

Lemma truthy_trim s : JS.truthy (JS.trim s) = negb (Spec.blank s).
Proof.
  destruct (Spec.blank s) eqn:Hb.
  - apply trim_empty_iff in Hb. by rewrite Hb.
  - destruct (JS.trim s) eqn:E; [|done].
    apply trim_empty_iff in E. congruence.
Qed.

Lemma trim_eqb_empty s : String.eqb (JS.trim s) "" = Spec.blank s.
Proof.
  destruct (Spec.blank s) eqn:Hb.
  - apply trim_empty_iff in Hb. by rewrite Hb.
  - apply String.eqb_neq. intros E. apply trim_empty_iff in E. congruence.
Qed.

Lemma to_int_proper z : Z.to_int z <> Decimal.Pos Decimal.Nil /\ Z.to_int z <> Decimal.Neg Decimal.Nil.
Proof.
  destruct z as [|p|p]; simpl; split; try discriminate;
    intros [= H]; by apply (DecimalPos.Unsigned.to_uint_nonnil p).
Qed.

(** Distinct numbers print differently. *)
Lemma ofInt_inj a b : JS.ofInt a = JS.ofInt b -> a = b.
Proof.
  unfold JS.ofInt. intros H.
  destruct (to_int_proper a) as [Ha1 Ha2], (to_int_proper b) as [Hb1 Hb2].
  pose proof (NilZero.isi _ Ha1 Ha2) as Ia.
  pose proof (NilZero.isi _ Hb1 Hb2) as Ib.
  rewrite H, Ib in Ia. injection Ia as Ia.
  rewrite <- (DecimalZ.of_to a), <- (DecimalZ.of_to b). by rewrite Ia.
Qed.

End StringFacts.

(** ** The contact filter *)

Section ContactFilter.

Import GUI.


(** The relation leaves no freedom: it has one result per list. *)
Lemma Selects_functional {A} (P : A -> Prop) (l r1 r2 : list A) :
  Spec.Selects P l r1 -> Spec.Selects P l r2 -> r1 = r2.
Proof.
  intros H1. revert r2.
  induction H1 as [|x l r HP _ IH|x l r HP _ IH]; intros r2 H2; inversion H2; subst;
    try done; try (f_equal; auto); auto.
Qed.

Lemma filter_all {A} (f : A -> bool) (l : list A) :
  (forall x, f x = true) -> List.filter f l = l.
Proof. intros Hf. induction l as [|x l IH]; simpl; [done|]. by rewrite Hf, IH. Qed.


Lemma elem_of_filteredContacts c contacts q :
  c ∈ filteredContacts contacts q <->
  c ∈ contacts /\ JS.includes (JS.toLowerCase (Contact.name c)) (JS.toLowerCase q) = true.
Proof. unfold filteredContacts. rewrite !list_elem_of_In. apply filter_In. Qed.

Lemma filter_sublist {A} (f : A -> bool) (l : list A) : List.filter f l `sublist_of` l.
Proof.
  induction l as [|x l IH]; simpl; [constructor|].
  destruct (f x); by constructor.
Qed.

Lemma filter_filter_implied {A} (f g : A -> bool) (l : list A) :
  (forall x, f x = true -> g x = true) ->
  List.filter f (List.filter g l) = List.filter f l.
Proof.
  intros Hfg. induction l as [|x l IH]; simpl; [done|].
  destruct (g x) eqn:Hg; simpl.
  - by rewrite IH.
  - destruct (f x) eqn:Hf; [|done]. apply Hfg in Hf. congruence.
Qed.

Lemma filteredContacts_empty_query contacts : filteredContacts contacts [] = contacts.
Proof. unfold filteredContacts. apply filter_all. intros c. apply includes_empty. Qed.



Lemma sample_names_latin1 : Forall (fun c => Spec.Latin1Only (Contact.name c)) [alice; bob].
Proof. repeat constructor; apply latin1_Latin1Only. Qed.


(** X1.  For a query made of code units below U+0100, extending it in
    front or behind searches within the previous result and so can only
    remove rows: a contact filtered out by [q] does not come back for a
    query that contains [q]. *)
Theorem longer_query_narrows (contacts : list Contact.t) (p q r : JS.text) :
  Spec.Latin1Only p -> Spec.Latin1Only q -> Spec.Latin1Only r ->
  filteredContacts contacts (p ++ q ++ r)%list
  = filteredContacts (filteredContacts contacts q) (p ++ q ++ r)%list
  /\ filteredContacts contacts (p ++ q ++ r)%list `sublist_of` filteredContacts contacts q
  /\ filteredContacts contacts q `sublist_of` contacts.
Proof.
  intros Hp Hq Hr.
  assert (E : filteredContacts contacts (p ++ q ++ r)%list
              = filteredContacts (filteredContacts contacts q) (p ++ q ++ r)%list).
  { unfold filteredContacts. symmetry. apply filter_filter_implied.
    intros c. rewrite (toLowerCase_latin1 q Hq), (toLowerCase_latin1 (p ++ q ++ r)%list).
    - rewrite !fmap_app. apply includes_inner.
    - apply Forall_app. split; [done|]. by apply Forall_app. }
  split; [exact E|]. split.
  - rewrite E. apply filter_sublist.
  - apply filter_sublist.
Qed.

Lemma longer_query_narrows_witness :
  filteredContacts [alice; bob] (JS.latin1 "lic") `sublist_of`
  filteredContacts [alice; bob] (JS.latin1 "i").
Proof.
  exact (proj1 (proj2 (longer_query_narrows [alice; bob] (JS.latin1 "l") (JS.latin1 "i")
                         (JS.latin1 "c") (latin1_Latin1Only "l") (latin1_Latin1Only "i")
                         (latin1_Latin1Only "c")))).
Defined.

(** X2.  For queries made of code units below U+0100 the letter case is
    immaterial: two such queries that differ only in letter case select the
    same rows. *)
Theorem query_case_is_immaterial (contacts : list Contact.t) (q q' : JS.text) :
  Spec.Latin1Only q -> Spec.Latin1Only q' ->
  Spec.SameIgnoringCase q q' ->
  filteredContacts contacts q = filteredContacts contacts q'.
Proof.
  intros Hq Hq' H. apply (lowerLatin1_eq_iff q q' Hq Hq') in H.
  unfold filteredContacts.
  by rewrite (toLowerCase_latin1 q Hq), (toLowerCase_latin1 q' Hq'), H.
Qed.

Lemma query_case_is_immaterial_witness :
  filteredContacts [alice; bob] (JS.latin1 "BO") = filteredContacts [alice; bob] (JS.latin1 "bo").
Proof.
  apply query_case_is_immaterial; [apply latin1_Latin1Only | apply latin1_Latin1Only |].
  apply lowerLatin1_eq_iff; [apply latin1_Latin1Only | apply latin1_Latin1Only | reflexivity].
Defined.



(** X4.  The list shows the "No contacts found" placeholder when the
    filtered list is empty and the filtered rows otherwise; for display
    names and a query made of code units below U+0100 that is exactly when
    no display name contains the query ignoring case.  An empty directory
    shows the placeholder for every query, and a directory with an entry
    shows all its rows for the empty query. *)
Theorem placeholder_iff_no_match (contacts : list Contact.t) (q : JS.text) :
  (Forall (fun c => Spec.Latin1Only (Contact.name c)) contacts ->
   Spec.Latin1Only q ->
   (View.listBody contacts q = View.NoContactsFound <->
    forall c, c ∈ contacts -> ~ Spec.ContainsIgnoringCase (Contact.name c) q))
  /\ (View.listBody contacts q = View.NoContactsFound <-> filteredContacts contacts q = [])
  /\ (View.listBody contacts q <> View.NoContactsFound ->
      View.listBody contacts q = View.Rows (filteredContacts contacts q))
  /\ View.listBody [] q = View.NoContactsFound
  /\ (contacts <> [] -> View.listBody contacts [] = View.Rows contacts).
Proof.
  unfold View.listBody. split; [|split; [|split; [|split]]].
  - intros Hn Hq. rewrite Forall_forall in Hn.
    destruct (filteredContacts contacts q) as [|c0 l] eqn:E; simpl.
    + split; [|done]. intros _ c Hc Hm.
      assert (Hin : c ∈ filteredContacts contacts q).
      { apply elem_of_filteredContacts. split; [done|].
        apply includes_toLowerCase_spec; [by apply Hn | done | done]. }
      rewrite E in Hin. by apply elem_of_nil in Hin.
    + split; [done|]. intros Hnone. exfalso.
      assert (Hin : c0 ∈ filteredContacts contacts q) by (rewrite E; apply list_elem_of_here).
      apply elem_of_filteredContacts in Hin as [Hc Hm].
      apply (Hnone c0 Hc). apply includes_toLowerCase_spec; [by apply Hn | done | done].
  - by destruct (filteredContacts contacts q).
  - by destruct (filteredContacts contacts q).
  - reflexivity.
  - intros Hne. rewrite filteredContacts_empty_query. by destruct contacts.
Qed.

Lemma placeholder_iff_no_match_witness :
  View.listBody [alice; bob] (JS.latin1 "zz") = View.NoContactsFound /\
  View.listBody [alice; bob] [] = View.Rows [alice; bob].
Proof.
  destruct (placeholder_iff_no_match [alice; bob] []) as (_ & _ & _ & _ & Hall).
  split; [|by apply Hall].
  apply (proj1 (placeholder_iff_no_match [alice; bob] (JS.latin1 "zz"))
           sample_names_latin1 (latin1_Latin1Only "zz")).
  intros c Hc Hin.
  apply includes_toLowerCase_spec in Hin;
    [|by apply (proj1 (Forall_forall _ _) sample_names_latin1)|apply latin1_Latin1Only].
  apply list_elem_of_In in Hc. simpl in Hc.
  destruct Hc as [<- | [<- | []]]; vm_compute in Hin; discriminate Hin.
Defined.

End ContactFilter.

(** ** The composer and the message record *)

Section Composer.

Import GUI.

Lemma handleSend_accepted a :
  Spec.blank (message (input a)) = false ->
  handleSend a =
  mkApp (shell a) (searchQuery a) (mkInput (message (input a)) true)
        (timers a ++ [mkTimer (message (input a)) (selectedContact (shell a))])%list.
Proof. intros Hb. unfold handleSend. by rewrite truthy_trim, Hb. Qed.

Lemma handleSend_rejected a :
  Spec.blank (message (input a)) = true -> handleSend a = a.
Proof. intros Hb. unfold handleSend. by rewrite truthy_trim, Hb. Qed.

(** What is spread is the conversation as it stands, empty if there is
    none; it is there unless the id is an inherited name that the record
    does not own. *)
Lemma conversation_Some (prev : gmap string (list Message.t)) k l :
  conversation prev k = Some l ->
  l = default [] (prev !! k) /\ (is_Some (prev !! k) \/ JS.inherited k = false).
Proof.
  unfold conversation. destruct (prev !! k) as [l0|] eqn:E; simpl.
  - intros [= <-]. split; [done|]. left. by eexists.
  - destruct (JS.inherited k); [done|]. intros [= <-]. by split; [|right].
Qed.

Lemma conversation_is_Some (prev : gmap string (list Message.t)) k :
  is_Some (conversation prev k) <-> is_Some (prev !! k) \/ JS.inherited k = false.
Proof.
  split.
  - intros [l Hl]. by apply conversation_Some in Hl as [_ H].
  - unfold conversation. intros [[l ->] | H]; [by eexists|].
    destruct (prev !! k); [by eexists|]. rewrite H. by eexists.
Qed.

Lemma handleSendMessage_accepted c now date content prev l :
  Spec.blank content = false ->
  conversation prev (Contact.id c) = Some l ->
  handleSendMessage (Some c) now date content prev =
  Some (<[Contact.id c := (l ++ [newMessage now date content])%list]> prev).
Proof. intros Hb Hl. unfold handleSendMessage. by rewrite truthy_trim, Hb, Hl. Qed.

Lemma handleSendMessage_throws c now date content prev :
  Spec.blank content = false ->
  conversation prev (Contact.id c) = None ->
  handleSendMessage (Some c) now date content prev = None.
Proof. intros Hb Hl. unfold handleSendMessage. by rewrite truthy_trim, Hb, Hl. Qed.

Lemma handleSendMessage_rejected sel now date content prev :
  sel = None \/ Spec.blank content = true ->
  handleSendMessage sel now date content prev = Some prev.
Proof.
  intros [-> | Hb]; [done|]. unfold handleSendMessage.
  destruct sel; [|done]. by rewrite truthy_trim, Hb.
Qed.

Lemma handleSendMessage_Some sel now date content prev next :
  handleSendMessage sel now date content prev = Some next ->
  (next = prev /\ (sel = None \/ Spec.blank content = true)) \/
  exists c l, sel = Some c /\ Spec.blank content = false /\
              conversation prev (Contact.id c) = Some l /\
              next = <[Contact.id c := (l ++ [newMessage now date content])%list]> prev.
Proof.
  destruct sel as [c|]; [destruct (Spec.blank content) eqn:Hb|].
  - rewrite handleSendMessage_rejected by by right. intros [= <-]. left. by split; [|right].
  - destruct (conversation prev (Contact.id c)) as [l|] eqn:Hl.
    + rewrite (handleSendMessage_accepted c now date content prev l Hb Hl).
      intros [= <-]. right. by exists c, l.
    + by rewrite (handleSendMessage_throws c now date content prev Hb Hl).
  - rewrite handleSendMessage_rejected by by left. intros [= <-]. left. by split; [|left].
Qed.

Lemma runTimer_Some t now date a a' :
  runTimer t now date a = Some a' <->
  exists m, handleSendMessage (timer_selectedContact t) now date (timer_message t)
                              (messages (shell a)) = Some m /\
            a' = mkApp (setMessages m (shell a)) (searchQuery a) (mkInput "" false) (timers a).
Proof.
  unfold runTimer. destruct (handleSendMessage _ _ _ _ _) as [m|].
  - split; [intros [= <-]; by exists m | intros (m' & [= <-] & ->); done].
  - split; [done | intros (m' & H & _); discriminate H].
Qed.

Lemma runTimer_None t now date a :
  runTimer t now date a = None <->
  handleSendMessage (timer_selectedContact t) now date (timer_message t)
                    (messages (shell a)) = None.
Proof. unfold runTimer. by destruct (handleSendMessage _ _ _ _ _). Qed.

Lemma runTimer_is_Some t now date a :
  is_Some (runTimer t now date a) <->
  is_Some (handleSendMessage (timer_selectedContact t) now date (timer_message t)
                             (messages (shell a))).
Proof.
  unfold runTimer. destruct (handleSendMessage _ _ _ _ _).
  - split; intros _; by eexists.
  - split; intros [x Hx]; discriminate Hx.
Qed.


(** X21.  A submit with a draft that is not blank and a contact selected
    goes through for every id that the record owns or
    that names no member of [Object.prototype]: exactly one callback is
    scheduled, holding the draft; when it runs it appends exactly one
    message, sent by ["me"] with status [sent], to the conversation of the
    contact, and leaves the draft empty and the sending flag cleared.  For
    the other ids the callback has no result. *)
Theorem accepted_submit_appends_one_message (a : App) (c : Contact.t) :
  selectedContact (shell a) = Some c ->
  Spec.blank (message (input a)) = false ->
  exists t,
    timers (handleSend a) = (timers a ++ [t])%list /\
    forall now date a',
      let before := default [] (messages (shell a') !! Contact.id c) in
      if decide (is_Some (messages (shell a') !! Contact.id c)
                 \/ JS.inherited (Contact.id c) = false)
      then exists a'' m,
             runTimer t now date a' = Some a'' /\
             messages (shell a'') = <[Contact.id c := (before ++ [m])%list]> (messages (shell a')) /\
             length (before ++ [m])%list = S (length before) /\
             Message.senderId m = "me" /\
             Message.status m = sent /\
             message (input a'') = "" /\
             isSending (input a'') = false
      else runTimer t now date a' = None.
Proof.
  intros Hsel Hb. rewrite (handleSend_accepted a Hb), Hsel.
  eexists. split; [reflexivity|]. intros now date a'. cbv zeta.
  case_decide as Hc.
  - apply conversation_is_Some in Hc as [l Hl].
    pose proof (conversation_Some _ _ _ Hl) as [-> _].
    eexists _, (newMessage now date (message (input a))).
    split.
    + apply runTimer_Some. eexists. split; [|reflexivity]. simpl.
      by apply handleSendMessage_accepted.
    + simpl. rewrite length_app. simpl. repeat split; lia.
  - apply runTimer_None. simpl. apply handleSendMessage_throws; [done|].
    destruct (conversation _ _) as [l|] eqn:Hl; [|done].
    destruct Hc. apply conversation_is_Some. by eexists.
Qed.

Lemma accepted_submit_appends_one_message_witness :
  exists a a'' t m,
    run desktop [Change "hi"] = Some a /\
    timers (handleSend a) = [t] /\
    runTimer t 1000 1001 a = Some a'' /\
    messages (shell a'') = {[ "1" := [m] ]} /\
    Message.senderId m = "me" /\ Message.status m = sent /\
    message (input a'') = "".
Proof.
  pose (a := setMessage "hi" desktop).
  destruct (accepted_submit_appends_one_message a alice eq_refl eq_refl)
    as (t & Ht & Hrun).
  specialize (Hrun 1000%Z 1001%Z a). cbv zeta in Hrun.
  destruct (decide _) as [_|Hno] in Hrun; [|destruct Hno; by right].
  destruct Hrun as (a'' & m & Hr & Hm & _ & Hsender & Hstatus & Hdraft & _).
  exists a, a'', t, m. repeat split;
    first [exact Ht | exact Hr | exact Hm | exact Hsender | exact Hstatus | exact Hdraft].
Defined.

(** C5.  With content that is not blank, the update of [handleSendMessage]
    goes through exactly when the record owns the contact's id or the id
    names no member of [Object.prototype]; and an update that goes through
    changes the conversation of that contact only: every other key of the
    record keeps its sequence, and the conversation is its old sequence,
    entry for entry, followed by the new message. *)
Theorem append_touches_one_conversation
    (c : Contact.t) (now date : Z) (content : string)
    (prev : gmap string (list Message.t)) :
  Spec.blank content = false ->
  (is_Some (handleSendMessage (Some c) now date content prev) <->
   is_Some (prev !! Contact.id c) \/ JS.inherited (Contact.id c) = false) /\
  forall next,
    handleSendMessage (Some c) now date content prev = Some next ->
    let before := default [] (prev !! Contact.id c) in
    (forall k, k <> Contact.id c -> next !! k = prev !! k) /\
    next !! Contact.id c = Some (before ++ [newMessage now date content])%list /\
    (forall i m, before !! i = Some m ->
       default [] (next !! Contact.id c) !! i = Some m).
Proof.
  intros Hb. split.
  - rewrite <- conversation_is_Some.
    destruct (conversation prev (Contact.id c)) as [l|] eqn:Hl.
    + rewrite (handleSendMessage_accepted c now date content prev l Hb Hl).
      split; intros _; by eexists.
    + rewrite (handleSendMessage_throws c now date content prev Hb Hl).
      split; intros [x Hx]; discriminate Hx.
  - intros next Hnext. cbv zeta.
    apply handleSendMessage_Some in Hnext
      as [[_ [Hn | Hn]] | (c' & l & [= <-] & _ & Hl & ->)]; [done | congruence |].
    apply conversation_Some in Hl as [-> _]. split; [|split].
    + intros k Hk. by apply lookup_insert_ne.
    + apply lookup_insert_eq.
    + intros i m Hi. rewrite lookup_insert_eq. simpl. by apply lookup_app_l_Some.
Qed.

Lemma append_touches_one_conversation_witness :
  let prev : gmap string (list Message.t) :=
    {[ "1" := [Message.mk "m1" "hello" "1" 5 read] ]} in
  exists next,
    handleSendMessage (Some bob) 1000 1000 "hi" prev = Some next /\
    next !! "1" = prev !! "1" /\
    next !! "2" = Some [Message.mk "msg-1000" "hi" "me" 1000 sent].
Proof.
  intros prev.
  destruct (append_touches_one_conversation bob 1000 1000 "hi" prev eq_refl)
    as [Hgoes Hframe].
  destruct (proj2 Hgoes) as [next Hnext]; [by right|].
  destruct (Hframe next Hnext) as (Hother & Hbob & _).
  exists next. split; [exact Hnext|]. split.
  - apply Hother. discriminate.
  - exact Hbob.
Defined.

(** C6.  A submit with an empty or whitespace-only draft changes nothing,
    whatever triggers it, and [handleSendMessage] leaves the whole message
    record as it was when no contact is selected or the content is blank;
    so does a timer callback in those cases, and while no contact is
    selected the composer is not there to submit from.  None of these
    throws: each has the state as its result. *)
Theorem rejected_submit_appends_nothing :
  (forall a, Spec.blank (message (input a)) = true ->
     handleSend a = a /\
     step a SendClick = Some a /\
     forall e caret, key e = "Enter" -> shiftKey e = false ->
                     step a (KeyDown e caret) = Some a)
  /\ (forall sel now date content prev,
        sel = None \/ Spec.blank content = true ->
        handleSendMessage sel now date content prev = Some prev)
  /\ (forall t now date a,
        timer_selectedContact t = None \/ Spec.blank (timer_message t) = true ->
        exists a', runTimer t now date a = Some a' /\
                   messages (shell a') = messages (shell a))
  /\ (forall a,
        selectedContact (shell a) = None ->
        step a SendClick = Some a /\ forall e caret, step a (KeyDown e caret) = Some a).
Proof.
  split; [|split; [|split]].
  - intros a Hb. pose proof (handleSend_rejected a Hb) as Hs.
    split; [done|]. split.
    + simpl. rewrite Hs. by destruct (_ && _).
    + intros e caret Hk Hshift. simpl. unfold handleKeyDown.
      rewrite Hk, Hshift, Hs. simpl. by destruct (composerMounted a).
  - apply handleSendMessage_rejected.
  - intros t now date a H. eexists. split.
    + apply runTimer_Some. eexists. split; [|reflexivity].
      by apply handleSendMessage_rejected.
    + reflexivity.
  - intros a Hsel. simpl. unfold composerMounted. by rewrite Hsel.
Qed.

Lemma rejected_submit_appends_nothing_witness :
  step (setMessage "   " desktop) (KeyDown plainEnter 3) = Some (setMessage "   " desktop)
  /\ handleSendMessage None 1000 1000 "hi" ∅ = Some ∅.
Proof.
  destruct rejected_submit_appends_nothing as (Hblank & Hguard & _ & _).
  split.
  - destruct (Hblank (setMessage "   " desktop) eq_refl) as (_ & _ & Hkey).
    apply Hkey; reflexivity.
  - apply Hguard. by left.
Defined.

(** [handleSend] never reads [isSending]: an Enter key press while a
    send is in flight schedules a further callback. *)
Lemma enter_ignores_sending_flag a e caret :
  composerMounted a = true ->
  isSending (input a) = true ->
  Spec.blank (message (input a)) = false ->
  key e = "Enter" -> shiftKey e = false ->
  timers <$> step a (KeyDown e caret) =
  Some (timers a ++ [mkTimer (message (input a)) (selectedContact (shell a))])%list.
Proof.
  intros Hm _ Hb Hk Hs. simpl. unfold handleKeyDown.
  rewrite Hm, Hk, Hs. simpl. by rewrite (handleSend_accepted a Hb).
Qed.

(** The send button is disabled while a send is in flight. *)
Lemma click_respects_sending_flag a :
  isSending (input a) = true -> step a SendClick = Some a.
Proof.
  intros Hs. simpl. unfold sendDisabled. rewrite Hs, orb_true_r.
  by rewrite andb_false_r.
Qed.

(** C3.  With the draft "hi" submitted by Enter and the send still in
    flight, a click on the send button is a no-op, but a second Enter key
    press schedules a second callback, and the two callbacks append two
    messages. *)
Theorem second_enter_during_delay_sends_again :
  exists a a1 a2,
    run desktop [Change "hi"; KeyDown plainEnter 2] = Some a /\
    isSending (input a) = true /\
    length (timers a) = 1 /\
    step a SendClick = Some a /\
    step a (KeyDown plainEnter 2) = Some a1 /\
    length (timers a1) = 2 /\
    run a [KeyDown plainEnter 2; TimerFires 1300 1300; TimerFires 1301 1301] = Some a2 /\
    messages (shell a2) !! "1"
    = Some [Message.mk "msg-1300" "hi" "me" 1300 sent;
            Message.mk "msg-1301" "hi" "me" 1301 sent].
Proof.
  eexists _, _, _. split; [vm_compute; reflexivity|].
  split; [reflexivity|]. split; [reflexivity|]. split; [reflexivity|].
  split; [vm_compute; reflexivity|]. split; [reflexivity|].
  split; [vm_compute; reflexivity|]. vm_compute. reflexivity.
Qed.

(** C4, refuted as stated: Ctrl+Enter on the draft "hi" submits it and
    inserts no line break. *)
Lemma ctrl_enter_submits : ~ Spec.EnterSubmitsUnlessModified.
Proof.
  intros H. specialize (H (setMessage "hi" desktop) ctrlEnter 2 eq_refl eq_refl).
  apply (f_equal (fmap (fun x => isSending (input x)))) in H.
  vm_compute in H. discriminate H.
Qed.

(** C4, amended.  In the composer an Enter key press submits the draft
    unless Shift is held, whatever the state of Ctrl, Alt and Meta; with
    Shift held the handler neither submits nor prevents the default, and
    the textarea inserts a line break into the draft. *)
Theorem enter_submits_unless_shift (a : App) (e : KeyboardEvent) (caret : nat) :
  composerMounted a = true ->
  key e = "Enter" ->
  handleKeyDown e a = (if shiftKey e then (a, false) else (handleSend a, true)) /\
  step a (KeyDown e caret) =
    Some (if shiftKey e
          then setMessage (insertLineBreak caret (message (input a))) a
          else handleSend a).
Proof.
  intros Hm Hk. simpl. unfold handleKeyDown. rewrite Hm, Hk.
  by destruct (shiftKey e).
Qed.

Lemma enter_submits_unless_shift_witness :
  let a := setMessage "hi" desktop in
  step a (KeyDown ctrlEnter 2) = Some (handleSend a) /\
  step a (KeyDown shiftEnter 2) = Some (setMessage ("hi" +:+ LF) a).
Proof.
  intros a.
  pose proof (proj2 (enter_submits_unless_shift a ctrlEnter 2 eq_refl eq_refl)) as Hctrl.
  pose proof (proj2 (enter_submits_unless_shift a shiftEnter 2 eq_refl eq_refl)) as Hshift.
  split; [exact Hctrl | exact Hshift].
Defined.

End Composer.

(** ** Selecting a contact *)

Section Selection.

Import GUI.

(** C9, refuted as stated: on a mobile layout with the sidebar open,
    clicking the selected contact closes the sidebar. *)
Lemma reselect_closes_mobile_sidebar : ~ Spec.ReselectChangesNothing.
Proof.
  intros H. destruct (H phone alice eq_refl) as (a' & Hstep & _ & Hside & _).
  vm_compute in Hstep. injection Hstep as <-.
  vm_compute in Hside. discriminate Hside.
Qed.

Lemma handleContactClick_twice c s :
  handleContactClick c (handleContactClick c s) = handleContactClick c s.
Proof.
  destruct s as [cs ms sel side mob th]. by destruct mob.
Qed.

Lemma handleContactClick_fields c s :
  contacts (handleContactClick c s) = contacts s /\
  messages (handleContactClick c s) = messages s /\
  selectedContact (handleContactClick c s) = Some c /\
  isMobile (handleContactClick c s) = isMobile s /\
  theme (handleContactClick c s) = theme s /\
  showSidebar (handleContactClick c s) = (if isMobile s then false else showSidebar s).
Proof.
  destruct s as [cs ms sel side mob th]. by destruct mob.
Qed.

Lemma step_ContactClick_listed a c :
  c ∈ filteredContacts (contacts (shell a)) (searchQuery a) ->
  step a (ContactClick c) = Some (withShell (handleContactClick c) a).
Proof. intros Hin. simpl. by rewrite bool_decide_eq_true_2. Qed.

Lemma step_ContactClick_unlisted a c :
  c ∉ filteredContacts (contacts (shell a)) (searchQuery a) ->
  step a (ContactClick c) = Some a.
Proof. intros Hin. simpl. by rewrite bool_decide_eq_false_2. Qed.

(** C9, amended.  Clicking a contact twice leaves the page as one click
    does.  Clicking the contact that is already selected keeps the
    selection, the contacts and the message record; where the contact is
    listed, the sidebar stays as it is on a desktop layout and is closed on
    a mobile layout; so the page is unchanged on a desktop layout and
    wherever the sidebar is already closed. *)
Theorem select_contact_idempotent (a : App) (c : Contact.t) :
  exists a',
    step a (ContactClick c) = Some a' /\
    step a' (ContactClick c) = Some a' /\
    (selectedContact (shell a) = Some c ->
     selectedContact (shell a') = Some c /\
     contacts (shell a') = contacts (shell a) /\
     messages (shell a') = messages (shell a) /\
     showSidebar (shell a')
     = (if bool_decide (c ∈ filteredContacts (contacts (shell a)) (searchQuery a))
           && isMobile (shell a)
        then false else showSidebar (shell a)) /\
     (isMobile (shell a) = false \/ showSidebar (shell a) = false -> a' = a)).
Proof.
  destruct (decide (c ∈ filteredContacts (contacts (shell a)) (searchQuery a))) as [Hin|Hin].
  - exists (withShell (handleContactClick c) a).
    destruct (handleContactClick_fields c (shell a)) as (Ec & Em & Es & _ & _ & Esb).
    split; [by apply step_ContactClick_listed|]. split.
    + rewrite step_ContactClick_listed by (simpl; by rewrite Ec).
      unfold withShell. simpl. by rewrite handleContactClick_twice.
    + intros Hsel. simpl. rewrite Ec, Em, Es, Esb, bool_decide_eq_true_2 by done.
      repeat split. clear - Hsel.
      destruct a as [[cs ms sel side mob th] q i ts]. simpl in *. subst sel.
      unfold withShell, handleContactClick, onCloseSidebar. simpl.
      intros [-> | ->]; [done | by destruct mob].
  - exists a. split; [by apply step_ContactClick_unlisted|].
    split; [by apply step_ContactClick_unlisted|].
    intros Hsel. rewrite bool_decide_eq_false_2 by done. by repeat split.
Qed.

Lemma select_contact_idempotent_witness :
  step desktop (ContactClick alice) = Some desktop /\
  exists a', step phone (ContactClick alice) = Some a' /\ showSidebar (shell a') = false.
Proof.
  split.
  - destruct (select_contact_idempotent desktop alice) as (a' & Hstep & _ & Hd).
    destruct (Hd eq_refl) as (_ & _ & _ & _ & Hsame).
    rewrite Hstep. f_equal. apply Hsame. by left.
  - destruct (select_contact_idempotent phone alice) as (a' & Hstep & _ & Hp).
    destruct (Hp eq_refl) as (_ & _ & _ & Hside & _).
    exists a'. split; [exact Hstep | exact Hside].
Defined.

End Selection.

(** ** The text that is delivered *)

Section RawText.

Import GUI.

(** C10.  What an accepted submit delivers is the draft as typed, without
    trimming.  In the mocked interface the callback holds the draft itself
    and hands it to [handleSendMessage]; its update goes through exactly
    when the record owns the contact's id or the id names no member of
    [Object.prototype], and the message it then appends has the draft as
    its content.  In the socket page the draft itself is emitted and shown
    after ["You: "]. *)
Theorem submitted_text_is_not_trimmed :
  (forall a c,
     selectedContact (shell a) = Some c ->
     Spec.blank (message (input a)) = false ->
     exists t,
       timers (handleSend a) = (timers a ++ [t])%list /\
       timer_message t = message (input a) /\
       forall now date a',
         (is_Some (runTimer t now date a') <->
          is_Some (messages (shell a') !! Contact.id c) \/ JS.inherited (Contact.id c) = false) /\
         forall a'',
           runTimer t now date a' = Some a'' ->
           Message.content <$> last (default [] (messages (shell a'') !! Contact.id c))
           = Some (message (input a)))
  /\ (forall h,
        Spec.blank (Echo.msg h) = false ->
        Echo.emitted (Echo.send h) = (Echo.emitted h ++ [("message", Echo.msg h)])%list /\
        Echo.messages (Echo.send h) = (Echo.messages h ++ ["You: " +:+ Echo.msg h])%list).
Proof.
  split.
  - intros a c Hsel Hb. rewrite (handleSend_accepted a Hb), Hsel.
    eexists. split; [reflexivity|]. split; [reflexivity|]. intros now date a'. split.
    + rewrite <- conversation_is_Some, runTimer_is_Some.
      cbn [timer_selectedContact timer_message].
      destruct (conversation _ _) as [l|] eqn:Hl.
      * rewrite (handleSendMessage_accepted c now date _ _ l Hb Hl).
        split; intros _; by eexists.
      * rewrite (handleSendMessage_throws c now date _ _ Hb Hl).
        split; intros [x Hx]; discriminate Hx.
    + intros a'' Hrun. apply runTimer_Some in Hrun as (m & Hm & ->).
      cbn [timer_selectedContact timer_message] in Hm. cbn [shell messages setMessages].
      apply handleSendMessage_Some in Hm
        as [[_ [Hn | Hn]] | (c' & l & [= <-] & _ & Hl & ->)]; [done | congruence |].
      rewrite lookup_insert_eq. simpl. by rewrite last_snoc.
  - intros h Hb. unfold Echo.send. by rewrite trim_eqb_empty, Hb.
Qed.

Lemma submitted_text_is_not_trimmed_witness :
  JS.trim " hi " = "hi" /\
  (exists t a'',
     timers (handleSend (setMessage " hi " desktop)) = [t] /\
     runTimer t 1000 1000 desktop = Some a'' /\
     Message.content <$> last (default [] (messages (shell a'') !! "1")) = Some " hi ") /\
  (Echo.emitted (Echo.send (Echo.mkHome " hi " [] [])) = [("message", " hi ")] /\
   Echo.messages (Echo.send (Echo.mkHome " hi " [] [])) = ["You:  hi "]).
Proof.
  destruct submitted_text_is_not_trimmed as [Hgui Hecho].
  split; [reflexivity|]. split.
  - destruct (Hgui (setMessage " hi " desktop) alice eq_refl eq_refl) as (t & Ht & _ & Hrun).
    destruct (Hrun 1000%Z 1000%Z desktop) as [Hgoes Hcontent].
    destruct (proj2 Hgoes) as [a'' Ha'']; [by right|].
    exists t, a''. split; [exact Ht|]. split; [exact Ha'' | exact (Hcontent a'' Ha'')].
  - exact (Hecho (Echo.mkHome " hi " [] []) eq_refl).
Defined.

End RawText.

(** ** The socket echo page *)

(** C8.  A click on Send with a non-blank text [msg] appends the line
    ["You: " + msg] at the end of the transcript in that very step, before
    any inbound event; an inbound ["receive"] event with payload
    [{text: s}] appends the line ["Friend: " + s] at the end. *)
Theorem echo_transcript_lines :
  (forall h,
     Spec.blank (Echo.msg h) = false ->
     Echo.messages (Echo.step h Echo.SendClick)
     = (Echo.messages h ++ ["You: " +:+ Echo.msg h])%list)
  /\ (forall h s,
        Echo.messages (Echo.step h (Echo.Inbound "receive" (Echo.mkPayload s)))
        = (Echo.messages h ++ ["Friend: " +:+ s])%list).
Proof.
  split.
  - intros h Hb. simpl. unfold Echo.send. by rewrite trim_eqb_empty, Hb.
  - intros h s. reflexivity.
Qed.

Lemma echo_transcript_lines_witness :
  Echo.messages (Echo.step (Echo.mkHome "hello" ["Friend: yo"] []) Echo.SendClick)
  = ["Friend: yo"; "You: hello"].
Proof.
  exact (proj1 echo_transcript_lines (Echo.mkHome "hello" ["Friend: yo"] []) eq_refl).
Defined.

(** ** Runs of the mocked page *)

Section Runs.

Import GUI.

Lemma run_cons a ev evs :
  run a (ev :: evs) = match step a ev with Some a' => run a' evs | None => None end.
Proof. reflexivity. Qed.

Lemma run_cons_Some a ev evs a'' :
  run a (ev :: evs) = Some a'' <-> exists a', step a ev = Some a' /\ run a' evs = Some a''.
Proof.
  rewrite run_cons. destruct (step a ev) as [a'|].
  - split; [by exists a' | by intros (x & [= <-] & H)].
  - split; [done | by intros (x & H & _)].
Qed.

Lemma run_app_Some a evs1 evs2 a'' :
  run a (evs1 ++ evs2)%list = Some a'' <->
  exists a', run a evs1 = Some a' /\ run a' evs2 = Some a''.
Proof.
  revert a. induction evs1 as [|ev evs1 IH]; intros a; simpl.
  - split; [by exists a | by intros (x & [= <-] & H)].
  - destruct (step a ev) as [a1|]; [apply IH|].
    split; [done | by intros (x & H & _)].
Qed.

(** Only a timer callback writes the message record. *)
Lemma step_messages a ev a' :
  step a ev = Some a' ->
  match ev, timers a with
  | TimerFires now date, t :: _ =>
      handleSendMessage (timer_selectedContact t) now date (timer_message t)
                        (messages (shell a)) = Some (messages (shell a'))
  | _, _ => messages (shell a') = messages (shell a)
  end.
Proof.
  destruct ev as [q|c| | |mobile|v|e caret| |now date]; simpl.
  - intros [= <-]. by destruct (timers a).
  - intros [= <-]. destruct (bool_decide _); simpl; [|by destruct (timers a)].
    rewrite (proj1 (proj2 (handleContactClick_fields c (shell a)))). by destruct (timers a).
  - intros [= <-]. destruct (isMobile (shell a)); by destruct (timers a).
  - intros [= <-]. by destruct (timers a).
  - intros [= <-]. by destruct (timers a).
  - intros [= <-]. destruct (composerMounted a); by destruct (timers a).
  - intros [= <-]. destruct (composerMounted a); [|by destruct (timers a)].
    unfold handleKeyDown, handleSend.
    destruct (String.eqb (key e) "Enter"), (shiftKey e),
      (JS.truthy (JS.trim (message (input a)))); simpl; by destruct (timers a).
  - intros [= <-]. unfold handleSend.
    destruct (composerMounted a && negb (sendDisabled (input a))),
      (JS.truthy (JS.trim (message (input a)))); simpl; by destruct (timers a).
  - destruct (timers a) as [|t rest]; [by intros [= <-]|].
    intros H. apply runTimer_Some in H as (m & Hm & ->). exact Hm.
Qed.

End Runs.

(** ** Message identifiers *)

Section Identifiers.

Import GUI.

(** C7, refuted as stated: two Enter key presses on the draft "hi" leave
    two callbacks pending; when both read the same [Date.now()], the
    conversation holds two messages with the id ["msg-1300"]. *)
Lemma same_clock_reading_repeats_id : ~ Spec.IdsAlwaysUnique desktop.
Proof.
  intros H.
  pose (evs := [Change "hi"; KeyDown plainEnter 2; KeyDown plainEnter 2;
                TimerFires 1300 1300; TimerFires 1300 1301]).
  destruct (run desktop evs) as [a|] eqn:Hrun; [|vm_compute in Hrun; discriminate Hrun].
  assert (Hl : messages (shell a) !! "1"
               = Some [Message.mk "msg-1300" "hi" "me" 1300 sent;
                       Message.mk "msg-1300" "hi" "me" 1301 sent]).
  { vm_compute in Hrun. injection Hrun as <-. vm_compute. reflexivity. }
  specialize (H a (ex_intro _ evs Hrun) _ _ Hl).
  simpl in H. apply NoDup_cons in H as [Hnotin _].
  apply Hnotin. apply list_elem_of_here.
Qed.

Lemma IdsFrom_mono seed used used' m :
  (forall t, t ∈ used -> t ∈ used') -> Spec.IdsFrom seed used m -> Spec.IdsFrom seed used' m.
Proof.
  intros Hsub Hinv k l Hl. destruct (Hinv k l Hl) as [Hnd Hfrom].
  split; [done|]. intros x Hx.
  destruct (Hfrom x Hx) as [Hseed | (t & Ht & E)]; [by left|].
  right. exists t. auto.
Qed.

Lemma handleSendMessage_IdsFrom seed used sel now date content m m' :
  Spec.IdsFrom seed used m ->
  now ∉ used ->
  Spec.SeedAvoids seed now ->
  handleSendMessage sel now date content m = Some m' ->
  Spec.IdsFrom seed (used ++ [now]) m'.
Proof.
  intros Hinv Hfresh Havoid Hm'.
  assert (Hmono : Spec.IdsFrom seed (used ++ [now]) m).
  { eapply IdsFrom_mono; [|exact Hinv]. intros t Ht. apply elem_of_app. by left. }
  apply handleSendMessage_Some in Hm' as [[-> _] | (c & old & -> & _ & Hold & ->)]; [done|].
  apply conversation_Some in Hold as [Hold _].
  intros k l. destruct (decide (k = Contact.id c)) as [->|Hk].
  - rewrite lookup_insert_eq. intros [= <-].
    assert (Hfrom' : NoDup (Message.id <$> old) /\
              forall x, x ∈ old ->
                (exists k' l', seed !! k' = Some l' /\ Message.id x ∈ Message.id <$> l') \/
                (exists t, t ∈ used /\ Message.id x = "msg-" +:+ JS.ofInt t)).
    { subst old. destruct (m !! Contact.id c) as [l|] eqn:E; simpl.
      - exact (Hinv _ _ E).
      - split; [constructor | intros x Hx; by apply elem_of_nil in Hx]. }
    destruct Hfrom' as [Hnd Hfrom]. split.
    + rewrite fmap_app. apply NoDup_app. split; [done|]. split; [|apply NoDup_singleton].
      intros i Hi Hnew. simpl in Hnew. apply list_elem_of_singleton in Hnew. subst i.
      apply list_elem_of_fmap in Hi as (x & Ex & Hx).
      destruct (Hfrom x Hx) as [(k' & l' & Hl' & Hin) | (t & Ht & E)].
      * apply (Havoid k' l' Hl'). by rewrite Ex.
      * rewrite E in Ex. apply (inj (String.append "msg-")) in Ex.
        apply ofInt_inj in Ex. by subst t.
    + intros x Hx. apply elem_of_app in Hx as [Hx | Hx].
      * destruct (Hfrom x Hx) as [Hseed | (t & Ht & E)]; [by left|].
        right. exists t. split; [apply elem_of_app; by left | done].
      * apply list_elem_of_singleton in Hx. subst x. right. exists now.
        split; [apply elem_of_app; right; apply list_elem_of_here | done].
  - rewrite lookup_insert_ne by done. apply Hmono.
Qed.

Lemma run_IdsFrom seed evs :
  forall a used a',
    Spec.IdsFrom seed used (messages (shell a)) ->
    NoDup (used ++ Spec.clockReadings evs) ->
    (forall now, now ∈ Spec.clockReadings evs -> Spec.SeedAvoids seed now) ->
    run a evs = Some a' ->
    Spec.IdsFrom seed (used ++ Spec.clockReadings evs) (messages (shell a')).
Proof.
  induction evs as [|ev evs IH]; intros a used a' Hinv Hnd Havoid Hrun.
  - simpl in *. injection Hrun as <-. by rewrite app_nil_r.
  - apply run_cons_Some in Hrun as (a1 & Hstep & Hrun).
    pose proof (step_messages a ev a1 Hstep) as Hm.
    destruct ev as [q|c| | |mobile|v|e caret| |now date];
      try (apply (IH a1 used a'); [by rewrite Hm | exact Hnd | exact Havoid | exact Hrun]).
    cbn [Spec.clockReadings] in *.
    replace (used ++ now :: Spec.clockReadings evs)%list
      with ((used ++ [now]) ++ Spec.clockReadings evs)%list in * by by rewrite <- app_assoc.
    apply (IH a1 (used ++ [now])%list a'); [|done| |exact Hrun].
    + destruct (timers a) as [|t ts].
      * rewrite Hm. eapply IdsFrom_mono; [|exact Hinv]. intros t Ht. apply elem_of_app. by left.
      * eapply handleSendMessage_IdsFrom; [exact Hinv| | |exact Hm].
        -- apply NoDup_app in Hnd as (Hnd & _ & _).
           apply NoDup_app in Hnd as (_ & Hdisj & _).
           intros Hin. apply (Hdisj now Hin). apply list_elem_of_here.
        -- apply Havoid. apply list_elem_of_here.
    + intros t Ht. apply Havoid. by apply list_elem_of_further.
Qed.

(** C7, amended.  The ids within a conversation are pairwise distinct in
    every state that a run from the first render reaches, provided they
    are so in the seed, the timer callbacks of the run read pairwise
    distinct values of [Date.now()], and no id of the seed is the id made
    from one of these values. *)
Theorem ids_unique_when_clock_readings_differ
    (initialContacts : list Contact.t) (initialMessages : gmap string (list Message.t))
    (mobile : bool) (theme : string) (evs : list Event) (a : App) :
  Spec.UniqueIds initialMessages ->
  NoDup (Spec.clockReadings evs) ->
  (forall now k l,
     now ∈ Spec.clockReadings evs -> initialMessages !! k = Some l ->
     "msg-" +:+ JS.ofInt now ∉ Message.id <$> l) ->
  run (init initialContacts initialMessages mobile theme) evs = Some a ->
  Spec.UniqueIds (messages (shell a)).
Proof.
  intros Hseed Hnd Havoid Hrun k l Hl.
  refine (proj1 (run_IdsFrom initialMessages evs _ [] a _ Hnd _ Hrun k l Hl)).
  - intros k' l' Hl'. split; [exact (Hseed k' l' Hl')|].
    intros x Hx. left. exists k', l'. split; [done|]. by apply list_elem_of_fmap_2.
  - intros now Hnow k' l'. by apply Havoid.
Qed.

Lemma ids_unique_when_clock_readings_differ_witness :
  let seed : gmap string (list Message.t) :=
    {[ "1" := [Message.mk "m1" "hello" "1" 5 read] ]} in
  let evs := [Change "hi"; SendClick; TimerFires 1000 1000;
              Change "yo"; KeyDown plainEnter 2; TimerFires 1400 1400] in
  exists a, run (init [alice; bob] seed false "light") evs = Some a /\
            Spec.UniqueIds (messages (shell a)).
Proof.
  intros seed evs.
  destruct (run (init [alice; bob] seed false "light") evs) as [a|] eqn:Hrun;
    [|vm_compute in Hrun; discriminate Hrun].
  exists a. split; [reflexivity|].
  apply (ids_unique_when_clock_readings_differ [alice; bob] seed false "light" evs a);
    [| | |exact Hrun].
  - intros k l Hl. apply lookup_singleton_Some in Hl as [_ <-].
    simpl. apply NoDup_singleton.
  - simpl. apply NoDup_cons. split; [|apply NoDup_singleton].
    intros H. apply list_elem_of_singleton in H. discriminate H.
  - intros now k l _ Hl. apply lookup_singleton_Some in Hl as [_ <-].
    simpl. intros Hin. apply list_elem_of_singleton in Hin.
    unfold String.append in Hin. discriminate Hin.
Defined.

End Identifiers.

(** ** Invariants of the mocked page *)

Section PageInvariants.

Import GUI.

Lemma handleSend_fields a :
  shell (handleSend a) = shell a /\ searchQuery (handleSend a) = searchQuery a /\
  message (input (handleSend a)) = message (input a).
Proof. unfold handleSend. by destruct (JS.truthy _). Qed.

(** No handler calls [setContacts], and none clears the selection. *)
Lemma step_shell a ev a' :
  step a ev = Some a' ->
  contacts (shell a') = contacts (shell a) /\
  (is_Some (selectedContact (shell a)) -> is_Some (selectedContact (shell a'))).
Proof.
  destruct ev as [q|c| | |mobile|v|e caret| |now date]; simpl.
  - by intros [= <-].
  - intros [= <-]. destruct (bool_decide _); [|done].
    destruct (handleContactClick_fields c (shell a)) as (Ec & _ & Es & _).
    simpl. rewrite Ec, Es. by split; [|eexists].
  - intros [= <-]. by destruct (isMobile _).
  - by intros [= <-].
  - by intros [= <-].
  - intros [= <-]. by destruct (composerMounted a).
  - intros [= <-]. destruct (composerMounted a); [|done]. unfold handleKeyDown.
    destruct (_ && negb (shiftKey e)); simpl.
    + by rewrite (proj1 (handleSend_fields a)).
    + by destruct (String.eqb _ _).
  - intros [= <-]. destruct (_ && _); [|done]. by rewrite (proj1 (handleSend_fields a)).
  - destruct (timers a) as [|t rest]; [by intros [= <-]|].
    intros H. by apply runTimer_Some in H as (m & _ & ->).
Qed.

Lemma TimerOk_of_selected a c :
  selectedContact (shell a) = Some c ->
  c ∈ contacts (shell a) ->
  Spec.blank (message (input a)) = false ->
  Inv.TimerOk (contacts (shell a)) (mkTimer (message (input a)) (selectedContact (shell a))).
Proof. intros Hsel Hc Hb. split; [done|]. exists c. by rewrite Hsel. Qed.

Lemma handleSend_WellFormed a :
  composerMounted a = true -> Inv.WellFormed a -> Inv.WellFormed (handleSend a).
Proof.
  intros Hm (Hsel & Htim & Hflag).
  destruct (Spec.blank (message (input a))) eqn:Hb.
  - by rewrite (handleSend_rejected a Hb).
  - rewrite (handleSend_accepted a Hb). split; [done|]. split; simpl.
    + apply Forall_app. split; [done|]. apply Forall_singleton.
      unfold composerMounted in Hm.
      destruct (selectedContact (shell a)) as [c|] eqn:E; [|done].
      rewrite <- E. apply (TimerOk_of_selected a c E (Hsel c eq_refl) Hb).
    + intros _. by destruct (timers a).
Qed.

Lemma setMessage_WellFormed v a : Inv.WellFormed a -> Inv.WellFormed (setMessage v a).
Proof. intros (Hsel & Htim & Hflag). by repeat split. Qed.

Lemma step_WellFormed a ev a' :
  step a ev = Some a' -> Inv.WellFormed a -> Inv.WellFormed a'.
Proof.
  intros Hstep Hwf. pose proof Hwf as (Hsel & Htim & Hflag).
  destruct ev as [q|c| | |mobile|v|e caret| |now date]; simpl in Hstep.
  - by injection Hstep as <-.
  - injection Hstep as <-. destruct (bool_decide _) eqn:Hin; [|done].
    apply bool_decide_eq_true in Hin. apply elem_of_filteredContacts in Hin as [Hin _].
    destruct (handleContactClick_fields c (shell a)) as (Ec & _ & Es & _).
    unfold Inv.WellFormed, withShell. simpl. rewrite Ec, Es.
    split; [by intros ? [= <-] | done].
  - injection Hstep as <-. by destruct (isMobile _).
  - by injection Hstep as <-.
  - by injection Hstep as <-.
  - injection Hstep as <-.
    destruct (composerMounted a); [by apply setMessage_WellFormed | done].
  - injection Hstep as <-.
    destruct (composerMounted a) eqn:Hm; [|done]. unfold handleKeyDown.
    destruct (_ && negb (shiftKey e)); simpl.
    + by apply handleSend_WellFormed.
    + destruct (String.eqb _ _); [by apply setMessage_WellFormed | done].
  - injection Hstep as <-.
    destruct (composerMounted a) eqn:Hm; simpl; [|done].
    destruct (negb _); [by apply handleSend_WellFormed | done].
  - destruct (timers a) as [|t rest] eqn:Et; [by injection Hstep as <-|].
    apply runTimer_Some in Hstep as (m & _ & ->).
    apply Forall_cons in Htim as [_ Hrest].
    unfold Inv.WellFormed. simpl. by repeat split.
Qed.

Lemma init_WellFormed initialContacts initialMessages mobile theme :
  Inv.WellFormed (init initialContacts initialMessages mobile theme).
Proof.
  unfold Inv.WellFormed. simpl. repeat split; [|constructor|done].
  intros c Hc. destruct initialContacts as [|c0 l]; [done|].
  injection Hc as <-. apply list_elem_of_here.
Qed.

Lemma run_WellFormed a evs a' :
  run a evs = Some a' -> Inv.WellFormed a ->
  Inv.WellFormed a' /\ contacts (shell a') = contacts (shell a).
Proof.
  revert a. induction evs as [|ev evs IH]; intros a Hrun Hwf.
  - by injection Hrun as <-.
  - apply run_cons_Some in Hrun as (a1 & Hstep & Hrun).
    destruct (IH a1 Hrun (step_WellFormed a ev a1 Hstep Hwf)) as [Hwf' Ec].
    split; [done|]. rewrite Ec. by apply (step_shell a ev a1).
Qed.

(** X5.  The directory is never modified, and the selected contact is
    always one of its entries: in every state reached from the first
    render the contacts are the initial ones and a selected contact is
    among them. *)
Theorem selection_stays_in_directory
    (initialContacts : list Contact.t) (initialMessages : gmap string (list Message.t))
    (mobile : bool) (theme : string) (evs : list Event) (a : App) :
  run (init initialContacts initialMessages mobile theme) evs = Some a ->
  contacts (shell a) = initialContacts /\
  forall c, selectedContact (shell a) = Some c -> c ∈ initialContacts.
Proof.
  intros Hrun.
  destruct (run_WellFormed _ evs a Hrun
              (init_WellFormed initialContacts initialMessages mobile theme))
    as [(Hsel & _) Ec].
  rewrite Ec in Hsel. by split.
Qed.

Lemma selection_stays_in_directory_witness :
  exists a,
    run desktop [ContactClick bob; Change "hi"; SendClick; TimerFires 1000 1000] = Some a /\
    contacts (shell a) = [alice; bob] /\
    forall c, selectedContact (shell a) = Some c -> c ∈ [alice; bob].
Proof.
  destruct (run desktop [ContactClick bob; Change "hi"; SendClick; TimerFires 1000 1000])
    as [a|] eqn:Hrun; [|vm_compute in Hrun; discriminate Hrun].
  exists a. split; [reflexivity|].
  exact (selection_stays_in_directory [alice; bob] ∅ false "light" _ a Hrun).
Defined.

(** X7.  The sending flag never sticks: in every state reached from the
    first render in which [isSending] is set, a callback is pending, and
    the state the next callback leaves has the flag cleared and that
    callback out of the queue. *)
Theorem sending_flag_has_pending_callback
    (initialContacts : list Contact.t) (initialMessages : gmap string (list Message.t))
    (mobile : bool) (theme : string) (evs : list Event) (a : App) :
  run (init initialContacts initialMessages mobile theme) evs = Some a ->
  isSending (input a) = true ->
  exists t rest,
    timers a = t :: rest /\
    forall now date a',
      step a (TimerFires now date) = Some a' ->
      isSending (input a') = false /\ timers a' = rest.
Proof.
  intros Hrun Hs.
  destruct (run_WellFormed _ evs a Hrun
              (init_WellFormed initialContacts initialMessages mobile theme))
    as [(_ & _ & Hflag) _].
  specialize (Hflag Hs).
  destruct (timers a) as [|t rest] eqn:Et; [done|].
  exists t, rest. split; [done|]. intros now date a' Hstep. simpl in Hstep.
  rewrite Et in Hstep. by apply runTimer_Some in Hstep as (m & _ & ->).
Qed.

Lemma sending_flag_has_pending_callback_witness :
  exists a t rest a',
    run desktop [Change "hi"; SendClick] = Some a /\
    timers a = t :: rest /\
    step a (TimerFires 1000 1000) = Some a' /\
    isSending (input a') = false.
Proof.
  destruct (run desktop [Change "hi"; SendClick]) as [a|] eqn:Hrun;
    [|vm_compute in Hrun; discriminate Hrun].
  assert (Hs : isSending (input a) = true)
    by (vm_compute in Hrun; by injection Hrun as <-).
  destruct (sending_flag_has_pending_callback [alice; bob] ∅ false "light" _ a Hrun Hs)
    as (t & rest & Et & Hnext).
  destruct (step a (TimerFires 1000 1000)) as [a'|] eqn:Hstep.
  - exists a, t, rest, a'. split; [reflexivity|]. split; [exact Et|]. split; [exact Hstep|].
    exact (proj1 (Hnext 1000%Z 1000%Z a' Hstep)).
  - vm_compute in Hrun. injection Hrun as <-. vm_compute in Hstep. discriminate Hstep.
Defined.

(** X8.  Every callback that is pending in a state reached from the first
    render holds a draft that is not blank and a contact of the directory.
    When it runs and the record owns the contact's id, or the id names no
    member of [Object.prototype], it leaves the queue and the conversation
    of that contact grows by exactly the message built from the captured
    draft; for the other ids the render throws. *)
Theorem pending_callback_delivers_or_throws
    (initialContacts : list Contact.t) (initialMessages : gmap string (list Message.t))
    (mobile : bool) (theme : string) (evs : list Event) (a : App)
    (t : Timer) (rest : list Timer) :
  run (init initialContacts initialMessages mobile theme) evs = Some a ->
  timers a = t :: rest ->
  exists c,
    timer_selectedContact t = Some c /\ c ∈ initialContacts /\
    Spec.blank (timer_message t) = false /\
    forall now date,
      if decide (is_Some (messages (shell a) !! Contact.id c)
                 \/ JS.inherited (Contact.id c) = false)
      then exists a',
             step a (TimerFires now date) = Some a' /\
             timers a' = rest /\
             messages (shell a') =
             <[Contact.id c :=
                 (default [] (messages (shell a) !! Contact.id c)
                  ++ [newMessage now date (timer_message t)])%list]> (messages (shell a))
      else step a (TimerFires now date) = None.
Proof.
  intros Hrun Et.
  destruct (run_WellFormed _ evs a Hrun
              (init_WellFormed initialContacts initialMessages mobile theme))
    as [(_ & Htim & _) Ec].
  rewrite Ec, Et in Htim. simpl in Htim.
  apply Forall_cons in Htim as [(Hb & c & Hc & Hin) _].
  exists c. split; [done|]. split; [done|]. split; [done|]. intros now date.
  simpl. rewrite Et. case_decide as Hgoes.
  - apply conversation_is_Some in Hgoes as [l Hl].
    pose proof (conversation_Some _ _ _ Hl) as [El _].
    exists (mkApp (setMessages
                     (<[Contact.id c := (l ++ [newMessage now date (timer_message t)])%list]>
                        (messages (shell a)))
                     (shell a))
                  (searchQuery a) (mkInput "" false) rest).
    split; [|split; [reflexivity | by rewrite El]].
    apply runTimer_Some. eexists. split; [|reflexivity].
    cbn [shell messages]. rewrite Hc. by apply handleSendMessage_accepted.
  - apply runTimer_None. cbn [shell messages]. rewrite Hc.
    apply handleSendMessage_throws; [done|].
    destruct (conversation _ _) as [l|] eqn:Hl; [|done].
    destruct Hgoes. apply conversation_is_Some. by eexists.
Qed.

Lemma pending_callback_delivers_or_throws_witness :
  (exists a a',
     run desktop [Change "hi"; SendClick] = Some a /\
     step a (TimerFires 1000 1001) = Some a' /\
     timers a' = [] /\
     messages (shell a') = {[ "1" := [newMessage 1000 1001 "hi"] ]})
  /\ (exists a,
        run (init [carol] ∅ false "light") [Change "hi"; SendClick] = Some a /\
        step a (TimerFires 1000 1001) = None).
Proof.
  split.
  - destruct (run desktop [Change "hi"; SendClick]) as [a|] eqn:Hrun;
      [|vm_compute in Hrun; discriminate Hrun].
    assert (Et : timers a = [mkTimer "hi" (Some alice)])
      by (vm_compute in Hrun; by injection Hrun as <-).
    assert (Em : messages (shell a) = ∅)
      by (vm_compute in Hrun; by injection Hrun as <-).
    destruct (pending_callback_delivers_or_throws [alice; bob] ∅ false "light" _ a _ _
                Hrun Et) as (c & Hc & _ & _ & Hfire).
    injection Hc as <-. specialize (Hfire 1000%Z 1001%Z).
    destruct (decide _) as [_|Hno] in Hfire; [|destruct Hno; by right].
    destruct Hfire as (a' & Hstep & Hrest & Hm).
    exists a, a'. split; [reflexivity|]. split; [exact Hstep|]. split; [exact Hrest|].
    rewrite Hm, Em. reflexivity.
  - destruct (run (init [carol] ∅ false "light") [Change "hi"; SendClick]) as [a|] eqn:Hrun;
      [|vm_compute in Hrun; discriminate Hrun].
    assert (Et : timers a = [mkTimer "hi" (Some carol)])
      by (vm_compute in Hrun; by injection Hrun as <-).
    assert (Em : messages (shell a) = ∅)
      by (vm_compute in Hrun; by injection Hrun as <-).
    destruct (pending_callback_delivers_or_throws [carol] ∅ false "light" _ a _ _
                Hrun Et) as (c & Hc & _ & _ & Hfire).
    injection Hc as <-. specialize (Hfire 1000%Z 1001%Z).
    destruct (decide _) as [[Hown | Hplain]|_] in Hfire.
    + rewrite Em in Hown. destruct Hown as [x Hx]. by rewrite lookup_empty in Hx.
    + discriminate Hplain.
    + exists a. split; [reflexivity | exact Hfire].
Defined.

Lemma step_is_Some a ev :
  Inv.WellFormed a ->
  Forall (fun c => JS.inherited (Contact.id c) = false) (contacts (shell a)) ->
  is_Some (step a ev).
Proof.
  intros (_ & Htim & _) Hplain.
  destruct ev as [q|c| | |mobile|v|e caret| |now date]; simpl; try by eexists.
  destruct (timers a) as [|t rest]; [by eexists|].
  apply Forall_cons in Htim as [(Hb & c & Hc & Hin) _].
  apply runTimer_is_Some. cbn [shell messages]. rewrite Hc.
  rewrite Forall_forall in Hplain.
  assert (Hl : is_Some (conversation (messages (shell a)) (Contact.id c))).
  { apply conversation_is_Some. right. by apply Hplain. }
  destruct Hl as [l Hl]. rewrite (handleSendMessage_accepted c now date _ _ l Hb Hl).
  by eexists.
Qed.

(** X22.  A directory none of whose ids names a member of [Object.prototype]
    never makes a render throw: every run from the first render reaches a
    state. *)
Theorem plain_ids_never_throw
    (initialContacts : list Contact.t) (initialMessages : gmap string (list Message.t))
    (mobile : bool) (theme : string) (evs : list Event) :
  Forall (fun c => JS.inherited (Contact.id c) = false) initialContacts ->
  is_Some (run (init initialContacts initialMessages mobile theme) evs).
Proof.
  intros Hplain.
  assert (Hgen : forall a, Inv.WellFormed a ->
            Forall (fun c => JS.inherited (Contact.id c) = false) (contacts (shell a)) ->
            is_Some (run a evs)).
  { induction evs as [|ev evs IH]; intros a Hwf Hp; [by eexists|].
    rewrite run_cons. destruct (step_is_Some a ev Hwf Hp) as [a1 Hstep].
    rewrite Hstep. apply IH; [by apply (step_WellFormed a ev a1)|].
    by rewrite (proj1 (step_shell a ev a1 Hstep)). }
  apply Hgen; [apply init_WellFormed | exact Hplain].
Qed.

Lemma plain_ids_never_throw_witness :
  is_Some (run desktop [Change "hi"; SendClick; ContactClick bob; TimerFires 1000 1000]).
Proof.
  apply (plain_ids_never_throw [alice; bob] ∅ false "light").
  repeat constructor.
Defined.

End PageInvariants.

(** ** Runs of the mocked page: what is kept *)

Section PageRuns.

Import GUI.

(** X6.  Nothing clears the selection: once a contact is selected, a
    contact is selected in every later state, so the composer stays on the
    page. *)
Theorem selection_is_never_cleared (a : App) (evs : list Event) (a' : App) :
  is_Some (selectedContact (shell a)) ->
  run a evs = Some a' ->
  is_Some (selectedContact (shell a')) /\ composerMounted a' = true.
Proof.
  revert a. induction evs as [|ev evs IH]; intros a Hs Hrun.
  - injection Hrun as <-. split; [done|]. unfold composerMounted. by destruct Hs as [c ->].
  - apply run_cons_Some in Hrun as (a1 & Hstep & Hrun).
    apply (IH a1); [|done]. by apply (step_shell a ev a1 Hstep).
Qed.

Lemma selection_is_never_cleared_witness :
  exists a',
    run desktop [ContactClick bob; Search (JS.latin1 "zz"); ContactClick alice] = Some a' /\
    composerMounted a' = true.
Proof.
  destruct (run desktop [ContactClick bob; Search (JS.latin1 "zz"); ContactClick alice])
    as [a'|] eqn:Hrun; [|vm_compute in Hrun; discriminate Hrun].
  exists a'. split; [reflexivity|].
  refine (proj2 (selection_is_never_cleared desktop _ a' _ Hrun)).
  by exists alice.
Defined.

Lemma handleSendMessage_extends sel now date content prev next k :
  handleSendMessage sel now date content prev = Some next ->
  exists extra,
    default [] (next !! k) = (default [] (prev !! k) ++ extra)%list /\
    Forall Inv.Outgoing extra /\
    (length extra <= 1)%nat /\
    (is_Some (prev !! k) -> is_Some (next !! k)).
Proof.
  intros H. apply handleSendMessage_Some in H as [[-> _] | (c & l & -> & Hb & Hl & ->)].
  - exists []. rewrite app_nil_r. repeat split; [constructor | simpl; lia | done].
  - apply conversation_Some in Hl as [-> _].
    destruct (decide (k = Contact.id c)) as [->|Hk].
    + exists [newMessage now date content]. rewrite lookup_insert_eq. simpl.
      repeat split; [|done|by eexists].
      apply Forall_singleton. by repeat split.
    + exists []. rewrite lookup_insert_ne, app_nil_r by done.
      repeat split; [constructor | simpl; lia | done].
Qed.

Lemma step_extends a ev a' k :
  step a ev = Some a' ->
  exists extra,
    default [] (messages (shell a') !! k)
    = (default [] (messages (shell a) !! k) ++ extra)%list /\
    Forall Inv.Outgoing extra /\
    (length extra <= length (Spec.clockReadings [ev]))%nat /\
    (is_Some (messages (shell a) !! k) -> is_Some (messages (shell a') !! k)).
Proof.
  intros Hstep. pose proof (step_messages a ev a' Hstep) as Hm.
  destruct ev as [q|c| | |mobile|v|e caret| |now date];
    try (rewrite Hm; exists []; rewrite app_nil_r;
         repeat split; [constructor | simpl; lia | done]).
  destruct (timers a) as [|t rest].
  - rewrite Hm. exists []. rewrite app_nil_r. repeat split; [constructor | simpl; lia | done].
  - by apply (handleSendMessage_extends _ _ _ _ _ _ k) in Hm.
Qed.

Lemma clockReadings_cons ev evs :
  length (Spec.clockReadings (ev :: evs))
  = (length (Spec.clockReadings [ev]) + length (Spec.clockReadings evs))%nat.
Proof. by destruct ev. Qed.

(** X9.  The message record is append-only over every run: each
    conversation is its earlier sequence followed by new messages, at most
    one per timer callback of the run, no key is ever removed, and every
    new message is an outgoing one (sender ["me"], status [sent], content
    not blank). *)
Theorem store_is_append_only (a : App) (evs : list Event) (a' : App) (k : string) :
  run a evs = Some a' ->
  exists extra,
    default [] (messages (shell a') !! k)
    = (default [] (messages (shell a) !! k) ++ extra)%list /\
    Forall Inv.Outgoing extra /\
    (length extra <= length (Spec.clockReadings evs))%nat /\
    (is_Some (messages (shell a) !! k) -> is_Some (messages (shell a') !! k)).
Proof.
  revert a. induction evs as [|ev evs IH]; intros a Hrun.
  - injection Hrun as <-. exists []. rewrite app_nil_r.
    repeat split; [constructor | simpl; lia | done].
  - apply run_cons_Some in Hrun as (a1 & Hstep & Hrun). rewrite clockReadings_cons.
    destruct (step_extends a ev a1 k Hstep) as (x1 & E1 & F1 & L1 & S1).
    destruct (IH a1 Hrun) as (x2 & E2 & F2 & L2 & S2).
    exists (x1 ++ x2)%list. rewrite E2, E1, length_app, <- app_assoc.
    repeat split; [by apply Forall_app | lia | auto].
Qed.

Lemma store_is_append_only_witness :
  exists a' extra,
    run desktop [Change "hi"; SendClick; TimerFires 1000 1000] = Some a' /\
    default [] (messages (shell a') !! "1") = extra /\
    Forall Inv.Outgoing extra /\ (length extra <= 1)%nat.
Proof.
  destruct (run desktop [Change "hi"; SendClick; TimerFires 1000 1000])
    as [a'|] eqn:Hrun; [|vm_compute in Hrun; discriminate Hrun].
  destruct (store_is_append_only desktop _ a' "1" Hrun) as (extra & E & Hout & Hlen & _).
  exists a', extra. split; [reflexivity|]. split; [exact E|]. split; [exact Hout | exact Hlen].
Defined.

Lemma length_timers_step a ev a' :
  Inv.submitsByEnter ev = false ->
  step a ev = Some a' ->
  length (timers a) = (if isSending (input a) then 1 else 0)%nat ->
  length (timers a') = (if isSending (input a') then 1 else 0)%nat.
Proof.
  intros Hev Hstep Hinv.
  destruct ev as [q|c| | |mobile|v|e caret| |now date]; simpl in *.
  - by injection Hstep as <-.
  - injection Hstep as <-. by destruct (bool_decide _).
  - injection Hstep as <-. by destruct (isMobile _).
  - by injection Hstep as <-.
  - by injection Hstep as <-.
  - injection Hstep as <-. by destruct (composerMounted a).
  - injection Hstep as <-.
    destruct (composerMounted a); [|done]. unfold handleKeyDown. rewrite Hev. simpl.
    by destruct (String.eqb _ _).
  - injection Hstep as <-.
    destruct (composerMounted a); simpl; [|done]. unfold sendDisabled.
    destruct (isSending (input a)) eqn:Hs.
    + rewrite orb_true_r. simpl. by rewrite Hs.
    + rewrite orb_false_r, negb_involutive. unfold handleSend.
      destruct (JS.truthy _); simpl; [|by rewrite Hs].
      rewrite length_app. simpl. lia.
  - destruct (timers a) as [|t rest] eqn:Et; [injection Hstep as <-; by rewrite Et|].
    apply runTimer_Some in Hstep as (m & _ & ->). simpl in *.
    destruct (isSending (input a)); simpl in Hinv; [|done].
    by injection Hinv.
Qed.

(** X10.  The button path keeps at most one send in flight: in a run that
    starts with nothing pending and in which no Enter key press reaches
    [handleSend], the queue holds one callback while [isSending] is set and
    none otherwise. *)
Theorem button_keeps_one_send_in_flight (a : App) (evs : list Event) (a' : App) :
  timers a = [] ->
  isSending (input a) = false ->
  forallb (fun ev => negb (Inv.submitsByEnter ev)) evs = true ->
  run a evs = Some a' ->
  length (timers a') = (if isSending (input a') then 1 else 0)%nat.
Proof.
  intros Ht Hs.
  assert (Hinv : length (timers a) = (if isSending (input a) then 1 else 0)%nat)
    by by rewrite Ht, Hs.
  clear Ht Hs. revert a Hinv.
  induction evs as [|ev evs IH]; intros a Hinv Hevs Hrun; [by injection Hrun as <-|].
  simpl in Hevs. apply andb_true_iff in Hevs as [Hev Hevs].
  apply negb_true_iff in Hev.
  apply run_cons_Some in Hrun as (a1 & Hstep & Hrun).
  apply (IH a1); [|done|done]. by apply (length_timers_step a ev a1).
Qed.

Lemma button_keeps_one_send_in_flight_witness :
  exists a',
    run desktop [Change "hi"; SendClick; SendClick; KeyDown shiftEnter 2; SendClick] = Some a' /\
    length (timers a') = 1%nat.
Proof.
  destruct (run desktop [Change "hi"; SendClick; SendClick; KeyDown shiftEnter 2; SendClick])
    as [a'|] eqn:Hrun; [|vm_compute in Hrun; discriminate Hrun].
  exists a'. split; [reflexivity|].
  rewrite (button_keeps_one_send_in_flight desktop
             [Change "hi"; SendClick; SendClick; KeyDown shiftEnter 2; SendClick]
             a' eq_refl eq_refl eq_refl Hrun).
  vm_compute in Hrun. by injection Hrun as <-.
Defined.

End PageRuns.

(** ** What happens during the send delay *)

Section SendDelay.

Import GUI.

Lemma step_TimerFires a t rest now date :
  timers a = t :: rest ->
  step a (TimerFires now date)
  = runTimer t now date (mkApp (shell a) (searchQuery a) (input a) rest).
Proof. intros Et. simpl. by rewrite Et. Qed.

Lemma step_SendClick_accepted a c :
  selectedContact (shell a) = Some c ->
  Spec.blank (message (input a)) = false ->
  isSending (input a) = false ->
  step a SendClick
  = Some (mkApp (shell a) (searchQuery a) (mkInput (message (input a)) true)
                (timers a ++ [mkTimer (message (input a)) (Some c)])%list).
Proof.
  intros Hsel Hb Hs. simpl. unfold composerMounted, sendDisabled.
  rewrite Hsel, truthy_trim, Hb, Hs. simpl.
  by rewrite (handleSend_accepted a Hb), Hsel.
Qed.

Lemma run_changes a vs :
  composerMounted a = true ->
  exists a',
    run a (Change <$> vs) = Some a' /\
    shell a' = shell a /\
    searchQuery a' = searchQuery a /\
    isSending (input a') = isSending (input a) /\
    timers a' = timers a.
Proof.
  revert a. induction vs as [|v vs IH]; intros a Hm; [by exists a|].
  destruct (IH (setMessage v a) Hm) as (a' & Hrun & E).
  exists a'. split; [|exact E]. rewrite fmap_cons, run_cons. simpl. by rewrite Hm.
Qed.

Lemma runTimer_accepted c now date content a l :
  Spec.blank content = false ->
  conversation (messages (shell a)) (Contact.id c) = Some l ->
  runTimer (mkTimer content (Some c)) now date a
  = Some (mkApp (setMessages
                   (<[Contact.id c :=
                        (default [] (messages (shell a) !! Contact.id c)
                         ++ [newMessage now date content])%list]> (messages (shell a)))
                   (shell a))
                (searchQuery a) (mkInput "" false) (timers a)).
Proof.
  intros Hb Hl. apply runTimer_Some. eexists. split; [|reflexivity]. simpl.
  pose proof (conversation_Some _ _ _ Hl) as [<- _].
  by apply handleSendMessage_accepted.
Qed.

(** X11.  The callback delivers the draft as it was when the submit was
    made, and clears whatever the draft is when it runs: text typed into
    the composer during the send delay is neither sent nor kept.  (The id
    of the contact is one the record owns or one that names no member of
    [Object.prototype].) *)
Theorem text_typed_during_delay_is_discarded
    (a : App) (c : Contact.t) (vs : list string) (now date : Z) :
  selectedContact (shell a) = Some c ->
  Spec.blank (message (input a)) = false ->
  isSending (input a) = false ->
  timers a = [] ->
  is_Some (messages (shell a) !! Contact.id c) \/ JS.inherited (Contact.id c) = false ->
  exists a',
    run a (SendClick :: (Change <$> vs) ++ [TimerFires now date])%list = Some a' /\
    message (input a') = "" /\
    timers a' = [] /\
    messages (shell a')
    = <[Contact.id c :=
          (default [] (messages (shell a) !! Contact.id c)
           ++ [newMessage now date (message (input a))])%list]> (messages (shell a)).
Proof.
  intros Hsel Hb Hs Ht Hgoes.
  apply conversation_is_Some in Hgoes as [l Hl].
  set (a1 := mkApp (shell a) (searchQuery a) (mkInput (message (input a)) true)
                   [mkTimer (message (input a)) (Some c)]).
  assert (Hm : composerMounted a1 = true) by (unfold composerMounted; simpl; by rewrite Hsel).
  destruct (run_changes a1 vs Hm) as (a2 & Hrun2 & Esh & Eq & _ & Eti).
  eexists. split.
  - apply run_cons_Some. exists a1. split.
    + rewrite (step_SendClick_accepted a c Hsel Hb Hs), Ht. reflexivity.
    + apply run_app_Some. exists a2. split; [exact Hrun2|].
      rewrite run_cons, (step_TimerFires a2 _ _ now date Eti).
      rewrite (runTimer_accepted c now date _ _ l Hb); [reflexivity|].
      simpl. by rewrite Esh.
  - simpl. rewrite Esh. by repeat split.
Qed.

Lemma text_typed_during_delay_is_discarded_witness :
  exists a',
    run (setMessage "hi" desktop)
        [SendClick; Change "hi there"; Change "hi there!"; TimerFires 1300 1300] = Some a' /\
    message (input a') = "" /\
    messages (shell a') = {[ "1" := [newMessage 1300 1300 "hi"] ]}.
Proof.
  destruct (text_typed_during_delay_is_discarded (setMessage "hi" desktop) alice
              ["hi there"; "hi there!"] 1300 1300 eq_refl eq_refl eq_refl eq_refl)
    as (a' & Hrun & Hdraft & _ & Hstore); [by right|].
  exists a'. split; [exact Hrun|]. split; [exact Hdraft | exact Hstore].
Defined.

(** X12.  The callback delivers to the contact that was selected when the
    submit was made: when another listed contact is clicked during the
    send delay, the message still goes to the first contact's conversation
    while the page shows the second.  (The id of the first contact is one
    the record owns or one that names no member of [Object.prototype].) *)
Theorem contact_switch_during_delay_keeps_target
    (a : App) (c1 c2 : Contact.t) (now date : Z) :
  selectedContact (shell a) = Some c1 ->
  Spec.blank (message (input a)) = false ->
  isSending (input a) = false ->
  timers a = [] ->
  c2 ∈ filteredContacts (contacts (shell a)) (searchQuery a) ->
  is_Some (messages (shell a) !! Contact.id c1) \/ JS.inherited (Contact.id c1) = false ->
  exists a',
    run a [SendClick; ContactClick c2; TimerFires now date] = Some a' /\
    selectedContact (shell a') = Some c2 /\
    messages (shell a')
    = <[Contact.id c1 :=
          (default [] (messages (shell a) !! Contact.id c1)
           ++ [newMessage now date (message (input a))])%list]> (messages (shell a)).
Proof.
  intros Hsel Hb Hs Ht Hin Hgoes.
  apply conversation_is_Some in Hgoes as [l Hl].
  destruct (handleContactClick_fields c2 (shell a)) as (_ & Em & Es & _).
  eexists. split.
  - rewrite run_cons, (step_SendClick_accepted a c1 Hsel Hb Hs), Ht.
    rewrite run_cons, step_ContactClick_listed by exact Hin.
    rewrite run_cons. erewrite step_TimerFires by reflexivity.
    rewrite (runTimer_accepted c1 now date _ _ l Hb); [reflexivity|].
    simpl. by rewrite Em.
  - simpl. by rewrite Es, Em.
Qed.

Lemma contact_switch_during_delay_keeps_target_witness :
  exists a',
    run (setMessage "hi" desktop) [SendClick; ContactClick bob; TimerFires 1300 1300] = Some a' /\
    selectedContact (shell a') = Some bob /\
    messages (shell a') = {[ "1" := [newMessage 1300 1300 "hi"] ]}.
Proof.
  apply (contact_switch_during_delay_keeps_target (setMessage "hi" desktop) alice bob
           1300 1300 eq_refl eq_refl eq_refl eq_refl).
  - apply list_elem_of_further, list_elem_of_here.
  - by right.
Defined.

(** X13.  The draft belongs to the composer, not to a conversation: it
    survives a change of contact, and a submit made after the change
    delivers it to the newly selected contact.  (The id of that contact is
    one the record owns or one that names no member of
    [Object.prototype].) *)
Theorem draft_follows_contact_switch
    (a : App) (c2 : Contact.t) (v : string) (now date : Z) :
  composerMounted a = true ->
  Spec.blank v = false ->
  isSending (input a) = false ->
  timers a = [] ->
  c2 ∈ filteredContacts (contacts (shell a)) (searchQuery a) ->
  is_Some (messages (shell a) !! Contact.id c2) \/ JS.inherited (Contact.id c2) = false ->
  (exists a1, run a [Change v; ContactClick c2] = Some a1 /\ message (input a1) = v) /\
  exists a',
    run a [Change v; ContactClick c2; SendClick; TimerFires now date] = Some a' /\
    messages (shell a')
    = <[Contact.id c2 :=
          (default [] (messages (shell a) !! Contact.id c2)
           ++ [newMessage now date v])%list]> (messages (shell a)).
Proof.
  intros Hm Hb Hs Ht Hin Hgoes.
  apply conversation_is_Some in Hgoes as [l Hl].
  assert (E1 : step a (Change v) = Some (setMessage v a)) by (simpl; by rewrite Hm).
  destruct (handleContactClick_fields c2 (shell a)) as (_ & Em & Es & _).
  set (a2 := withShell (handleContactClick c2) (setMessage v a)).
  assert (E2 : step (setMessage v a) (ContactClick c2) = Some a2)
    by (by apply step_ContactClick_listed).
  split.
  - exists a2. split; [|done]. rewrite run_cons, E1, run_cons, E2. reflexivity.
  - eexists. split.
    + rewrite run_cons, E1, run_cons, E2.
      rewrite run_cons, (step_SendClick_accepted a2 c2); [|exact Es|exact Hb|exact Hs].
      rewrite run_cons. erewrite step_TimerFires by (simpl; rewrite Ht; reflexivity).
      rewrite (runTimer_accepted c2 now date _ _ l Hb); [reflexivity|].
      simpl. by rewrite Em.
    + simpl. by rewrite Em.
Qed.

Lemma draft_follows_contact_switch_witness :
  exists a',
    run desktop [Change "hi"; ContactClick bob; SendClick; TimerFires 1300 1300] = Some a' /\
    messages (shell a') = {[ "2" := [newMessage 1300 1300 "hi"] ]}.
Proof.
  refine (proj2 (draft_follows_contact_switch desktop bob "hi" 1300 1300
                   eq_refl eq_refl eq_refl eq_refl _ _)).
  - apply list_elem_of_further, list_elem_of_here.
  - by right.
Defined.

End SendDelay.

(** ** Where messages are filed, and the two ways to submit *)

Section Filing.

Import GUI.

Lemma step_keys (seed : gmap string (list Message.t)) a ev a' :
  step a ev = Some a' ->
  Inv.WellFormed a ->
  (forall k, is_Some (messages (shell a) !! k) ->
             is_Some (seed !! k) \/ exists c, c ∈ contacts (shell a) /\ Contact.id c = k) ->
  forall k, is_Some (messages (shell a') !! k) ->
            is_Some (seed !! k) \/ exists c, c ∈ contacts (shell a) /\ Contact.id c = k.
Proof.
  intros Hstep (_ & Htim & _) Hkeys k. pose proof (step_messages a ev a' Hstep) as Hm.
  destruct ev as [q|c| | |mobile|v|e caret| |now date]; try (rewrite Hm; apply Hkeys).
  destruct (timers a) as [|t rest]; [rewrite Hm; apply Hkeys|].
  apply Forall_cons in Htim as [(Hb & c & Hc & Hin) _]. rewrite Hc in Hm.
  apply handleSendMessage_Some in Hm as [[-> _] | (c' & l & [= <-] & _ & _ & ->)];
    [apply Hkeys|].
  destruct (decide (k = Contact.id c)) as [->|Hk].
  - intros _. right. by exists c.
  - rewrite lookup_insert_ne by done. apply Hkeys.
Qed.

Lemma run_keys (seed : gmap string (list Message.t)) a evs a' :
  run a evs = Some a' ->
  Inv.WellFormed a ->
  (forall k, is_Some (messages (shell a) !! k) ->
             is_Some (seed !! k) \/ exists c, c ∈ contacts (shell a) /\ Contact.id c = k) ->
  forall k, is_Some (messages (shell a') !! k) ->
            is_Some (seed !! k) \/ exists c, c ∈ contacts (shell a) /\ Contact.id c = k.
Proof.
  revert a. induction evs as [|ev evs IH]; intros a Hrun Hwf Hkeys; [by injection Hrun as <-|].
  apply run_cons_Some in Hrun as (a1 & Hstep & Hrun).
  rewrite <- (proj1 (step_shell a ev a1 Hstep)).
  apply (IH a1 Hrun); [by apply (step_WellFormed a ev a1)|].
  rewrite (proj1 (step_shell a ev a1 Hstep)). by apply (step_keys seed a ev a1).
Qed.

(** X14.  Messages are filed only under keys of the seed and ids of
    directory contacts: in every state reached from the first render, a key
    of the message record is a key of the initial record or the id of an
    entry of the directory. *)
Theorem conversations_are_keyed_by_directory
    (initialContacts : list Contact.t) (initialMessages : gmap string (list Message.t))
    (mobile : bool) (theme : string) (evs : list Event) (a : App) (k : string) :
  run (init initialContacts initialMessages mobile theme) evs = Some a ->
  is_Some (messages (shell a) !! k) ->
  is_Some (initialMessages !! k) \/ exists c, c ∈ initialContacts /\ Contact.id c = k.
Proof.
  intros Hrun.
  apply (run_keys initialMessages (init initialContacts initialMessages mobile theme) evs a Hrun).
  - apply init_WellFormed.
  - intros k' Hk'. by left.
Qed.

Lemma conversations_are_keyed_by_directory_witness :
  is_Some ((∅ : gmap string (list Message.t)) !! "2") \/
  exists c, c ∈ [alice; bob] /\ Contact.id c = "2".
Proof.
  destruct (run desktop [ContactClick bob; Change "hi"; SendClick; TimerFires 1300 1300])
    as [a|] eqn:Hrun; [|vm_compute in Hrun; discriminate Hrun].
  apply (conversations_are_keyed_by_directory [alice; bob] ∅ false "light"
           [ContactClick bob; Change "hi"; SendClick; TimerFires 1300 1300] a "2" Hrun).
  vm_compute in Hrun. injection Hrun as <-. vm_compute. by eexists.
Defined.

(** X15.  While no send is in flight, Enter without Shift and a click on
    the send button are the same submit: they lead to the same state,
    whatever the draft. *)
Theorem enter_equals_button_when_idle (a : App) (e : KeyboardEvent) (caret : nat) :
  isSending (input a) = false ->
  key e = "Enter" ->
  shiftKey e = false ->
  step a (KeyDown e caret) = step a SendClick.
Proof.
  intros Hs Hk Hshift. simpl. unfold handleKeyDown, sendDisabled.
  rewrite Hk, Hshift, Hs, orb_false_r, negb_involutive. simpl.
  destruct (composerMounted a); simpl; [|done].
  unfold handleSend. by destruct (JS.truthy _).
Qed.

Lemma enter_equals_button_when_idle_witness :
  step (setMessage "hi" desktop) (KeyDown ctrlEnter 2) = step (setMessage "hi" desktop) SendClick.
Proof.
  exact (enter_equals_button_when_idle (setMessage "hi" desktop) ctrlEnter 2
           eq_refl eq_refl eq_refl).
Defined.

End Filing.

(** ** Theme and sidebar *)

Section Presentation.

Import GUI.

Lemma toggleTheme_range s :
  theme (toggleTheme s) = "light" \/ theme (toggleTheme s) = "dark".
Proof. unfold toggleTheme. simpl. destruct (String.eqb _ _); auto. Qed.

(** X16.  The theme button only ever sets ["light"] or ["dark"] and touches
    nothing but the theme.  From ["dark"] or ["light"] two presses restore
    the state; from any other theme the first press sets ["dark"], and no
    number of presses brings the other theme back. *)
Theorem toggleTheme_two_states (s : MessagingInterface) :
  (theme (toggleTheme s) = "light" \/ theme (toggleTheme s) = "dark") /\
  toggleTheme s = setTheme (theme (toggleTheme s)) s /\
  (theme s = "dark" \/ theme s = "light" -> toggleTheme (toggleTheme s) = s) /\
  (theme s <> "dark" -> theme s <> "light" ->
   theme (toggleTheme s) = "dark" /\
   forall n, theme (Nat.iter (S n) toggleTheme s) <> theme s).
Proof.
  split; [apply toggleTheme_range|]. split; [reflexivity|]. split.
  - intros [E | E]; destruct s as [cs ms sel side mob th]; simpl in E; subst th; reflexivity.
  - intros Hd Hl. split.
    + unfold toggleTheme. simpl. by destruct (String.eqb_spec (theme s) "dark").
    + intros n.
      change (Nat.iter (S n) toggleTheme s) with (toggleTheme (Nat.iter n toggleTheme s)).
      destruct (toggleTheme_range (Nat.iter n toggleTheme s)) as [E | E];
        rewrite E; congruence.
Qed.

Lemma toggleTheme_two_states_witness :
  toggleTheme (toggleTheme (shell desktop)) = shell desktop /\
  theme (toggleTheme (setTheme "system" (shell desktop))) = "dark".
Proof.
  destruct (toggleTheme_two_states (shell desktop)) as (_ & _ & Hback & _).
  destruct (toggleTheme_two_states (setTheme "system" (shell desktop))) as (_ & _ & _ & Hsys).
  split; [apply Hback; by right|].
  apply Hsys; discriminate.
Defined.

(** X17.  On a desktop layout no event changes the sidebar flag.  On a mobile
    layout the menu button flips it, so two presses restore the state, and
    a click on a listed contact closes it. *)
Theorem sidebar_changes_only_on_mobile (a : App) :
  (isMobile (shell a) = false ->
   forall ev a', step a ev = Some a' -> showSidebar (shell a') = showSidebar (shell a)) /\
  (isMobile (shell a) = true ->
   (exists a1, step a MenuClick = Some a1 /\
               showSidebar (shell a1) = negb (showSidebar (shell a)) /\
               step a1 MenuClick = Some a) /\
   forall c, c ∈ filteredContacts (contacts (shell a)) (searchQuery a) ->
             exists a2, step a (ContactClick c) = Some a2 /\
                        showSidebar (shell a2) = false).
Proof.
  destruct a as [[cs ms sel side mob th] q i ts]. simpl. split.
  - intros ->. intros [q'|c| | |mobile|v|e caret| |now date] a'; simpl.
    + by intros [= <-].
    + intros [= <-]. by destruct (bool_decide _).
    + by intros [= <-].
    + by intros [= <-].
    + by intros [= <-].
    + intros [= <-]. by destruct (composerMounted _).
    + intros [= <-]. destruct (composerMounted _); [|done].
      unfold handleKeyDown, handleSend. simpl.
      destruct (_ && negb (shiftKey e)); simpl.
      * by destruct (JS.truthy _).
      * by destruct (String.eqb _ _).
    + intros [= <-]. unfold handleSend. simpl.
      destruct (_ && _); [|done]. by destruct (JS.truthy _).
    + destruct ts as [|t rest]; [by intros [= <-]|].
      intros H. by apply runTimer_Some in H as (m & _ & ->).
  - intros ->. split.
    + eexists. split; [reflexivity|]. split; [reflexivity|].
      unfold withShell, setShowSidebar. simpl. by rewrite negb_involutive.
    + intros c Hc. eexists. split; [reflexivity|]. simpl. by rewrite bool_decide_eq_true_2.
Qed.

Lemma sidebar_changes_only_on_mobile_witness :
  (forall a', step desktop (ContactClick bob) = Some a' -> showSidebar (shell a') = true) /\
  exists a1, step phone MenuClick = Some a1 /\ step a1 MenuClick = Some phone.
Proof.
  split.
  - exact (proj1 (sidebar_changes_only_on_mobile desktop) eq_refl (ContactClick bob)).
  - destruct (proj1 (proj2 (sidebar_changes_only_on_mobile phone) eq_refl))
      as (a1 & Hstep & _ & Hback).
    exists a1. split; [exact Hstep | exact Hback].
Defined.

End Presentation.

(** ** Runs of the socket echo page *)

Section EchoRuns.

Lemma echo_run_cons h ev evs : Echo.run h (ev :: evs) = Echo.run (Echo.step h ev) evs.
Proof. reflexivity. Qed.

Lemma echo_send_accepted h :
  Spec.blank (Echo.msg h) = false ->
  Echo.send h = Echo.mkHome "" (Echo.messages h ++ ["You: " +:+ Echo.msg h])%list
                            (Echo.emitted h ++ [("message", Echo.msg h)])%list.
Proof. intros Hb. unfold Echo.send. by rewrite trim_eqb_empty, Hb. Qed.

Lemma echo_send_rejected h : Spec.blank (Echo.msg h) = true -> Echo.send h = h.
Proof. intros Hb. unfold Echo.send. by rewrite trim_eqb_empty, Hb. Qed.

(** X18.  [send] does nothing at all exactly when the text is empty or
    whitespace-only: nothing is emitted, no line is written and the input
    keeps its text.  After a send the input is empty, so a second click
    right after changes nothing: sending twice is sending once. *)
Theorem echo_send_guard (h : Echo.Home) :
  (Echo.send h = h <-> Spec.blank (Echo.msg h) = true) /\
  Echo.send (Echo.send h) = Echo.send h.
Proof.
  destruct (Spec.blank (Echo.msg h)) eqn:Hb.
  - rewrite (echo_send_rejected h Hb). split; [done|]. by apply echo_send_rejected.
  - rewrite (echo_send_accepted h Hb). split.
    + split; [|done]. intros E. apply (f_equal Echo.msg) in E. simpl in E.
      rewrite <- E in Hb. discriminate Hb.
    + by apply echo_send_rejected.
Qed.

Lemma filter_singleton_true {A} (f : A -> bool) (x : A) :
  f x = true -> List.filter f [x] = [x].
Proof. intros H. simpl. by rewrite H. Qed.

Lemma local_line_is_local s : Inv.isLocalLine ("You: " +:+ s) = true.
Proof. apply startsWith_spec. by exists s. Qed.

Lemma remote_line_is_not_local s : Inv.isLocalLine ("Friend: " +:+ s) = false.
Proof. reflexivity. Qed.

Lemma echo_step_prefix h ev :
  Echo.messages h `prefix_of` Echo.messages (Echo.step h ev) /\
  Echo.emitted h `prefix_of` Echo.emitted (Echo.step h ev) /\
  (length (Echo.messages (Echo.step h ev)) <= S (length (Echo.messages h)))%nat.
Proof.
  destruct ev as [v| |event data]; simpl.
  - repeat split; [done | done | lia].
  - destruct (Spec.blank (Echo.msg h)) eqn:Hb.
    + rewrite (echo_send_rejected h Hb). repeat split; [done | done | lia].
    + rewrite (echo_send_accepted h Hb). simpl. rewrite length_app. simpl.
      repeat split; [by eexists | by eexists | lia].
  - destruct (String.eqb event "receive"); simpl.
    + rewrite length_app. simpl. repeat split; [by eexists | done | lia].
    + repeat split; [done | done | lia].
Qed.

(** X19.  The transcript and the record of emits only grow: over every run the
    earlier transcript is a prefix of the later one, line for line, the
    earlier emits are a prefix of the later ones, and each event adds at
    most one line. *)
Theorem echo_transcript_is_append_only (h : Echo.Home) (evs : list Echo.Event) :
  Echo.messages h `prefix_of` Echo.messages (Echo.run h evs) /\
  Echo.emitted h `prefix_of` Echo.emitted (Echo.run h evs) /\
  (length (Echo.messages (Echo.run h evs)) <= length (Echo.messages h) + length evs)%nat.
Proof.
  revert h. induction evs as [|ev evs IH]; intros h.
  - simpl. repeat split; [done | done | lia].
  - rewrite echo_run_cons.
    destruct (echo_step_prefix h ev) as (P1 & P2 & L1).
    destruct (IH (Echo.step h ev)) as (Q1 & Q2 & L2).
    repeat split; [by etrans | by etrans | simpl; lia].
Qed.

Lemma echo_step_matches h ev :
  List.filter Inv.isLocalLine (Echo.messages h)
  = (fun p => "You: " +:+ snd p) <$> Echo.emitted h ->
  Forall (fun p => fst p = "message" /\ Spec.blank (snd p) = false) (Echo.emitted h) ->
  List.filter Inv.isLocalLine (Echo.messages (Echo.step h ev))
  = (fun p => "You: " +:+ snd p) <$> Echo.emitted (Echo.step h ev) /\
  Forall (fun p => fst p = "message" /\ Spec.blank (snd p) = false)
         (Echo.emitted (Echo.step h ev)) /\
  (length (Echo.emitted (Echo.step h ev))
   <= length (Echo.emitted h) + Inv.sendClicks [ev])%nat.
Proof.
  intros Hm Hf. destruct ev as [v| |event data]; simpl.
  - repeat split; [done | done | lia].
  - destruct (Spec.blank (Echo.msg h)) eqn:Hb.
    + rewrite (echo_send_rejected h Hb). repeat split; [done | done | lia].
    + rewrite (echo_send_accepted h Hb).
      cbn [Echo.messages Echo.emitted Inv.sendClicks].
      rewrite List.filter_app, fmap_app, Hm, !length_app.
      rewrite (filter_singleton_true _ _ (local_line_is_local (Echo.msg h))).
      repeat split; [|simpl; lia]. apply Forall_app. split; [done|].
      by apply Forall_singleton.
  - destruct (String.eqb event "receive"); simpl.
    + rewrite List.filter_app, Hm. simpl. rewrite app_nil_r.
      repeat split; [done | lia].
    + repeat split; [done | done | lia].
Qed.

Lemma sendClicks_cons ev evs :
  Inv.sendClicks (ev :: evs) = (Inv.sendClicks [ev] + Inv.sendClicks evs)%nat.
Proof. by destruct ev. Qed.

Lemma echo_run_matches h evs :
  List.filter Inv.isLocalLine (Echo.messages h)
  = (fun p => "You: " +:+ snd p) <$> Echo.emitted h ->
  Forall (fun p => fst p = "message" /\ Spec.blank (snd p) = false) (Echo.emitted h) ->
  List.filter Inv.isLocalLine (Echo.messages (Echo.run h evs))
  = (fun p => "You: " +:+ snd p) <$> Echo.emitted (Echo.run h evs) /\
  Forall (fun p => fst p = "message" /\ Spec.blank (snd p) = false)
         (Echo.emitted (Echo.run h evs)) /\
  (length (Echo.emitted (Echo.run h evs))
   <= length (Echo.emitted h) + Inv.sendClicks evs)%nat.
Proof.
  revert h. induction evs as [|ev evs IH]; intros h Hm Hf.
  - simpl. repeat split; [done | done | lia].
  - rewrite echo_run_cons, sendClicks_cons.
    destruct (echo_step_matches h ev Hm Hf) as (Hm1 & Hf1 & L1).
    destruct (IH _ Hm1 Hf1) as (Hm2 & Hf2 & L2).
    repeat split; [done | done | lia].
Qed.

(** X20.  In every state the page reaches from its first render, the ["You: "]
    lines of the transcript are, in order, exactly the texts handed to
    [socket.emit]; every emit is a ["message"] event with a text that is
    not blank; and there are at most as many emits as clicks on Send, so
    inbound events and typing never emit. *)
Theorem echo_local_lines_match_emits (evs : list Echo.Event) :
  let h := Echo.run Echo.init evs in
  List.filter Inv.isLocalLine (Echo.messages h)
  = (fun p => "You: " +:+ snd p) <$> Echo.emitted h /\
  Forall (fun p => fst p = "message" /\ Spec.blank (snd p) = false) (Echo.emitted h) /\
  (length (Echo.emitted h) <= Inv.sendClicks evs)%nat.
Proof.
  cbv zeta. apply (echo_run_matches Echo.init evs); [reflexivity | constructor].
Qed.

End EchoRuns.
